(** * srsRAN: shallow embedding of the scheduler grid allocator interfaces,
      the bounded integer, and the Open Fronthaul NEON IQ packing

    The development follows the sources file by file:
    - [BoundedInteger]: [bounded_integer<Integer, MIN_VALUE, MAX_VALUE>]
      (adt/bounded_integer.h) and its use as [sch_mcs_index];
    - [Neon]: the NEON intrinsics used by lib/ofh/compression/packing_utils_neon.h
      and the packing and unpacking routines written with them;
    - [Tdd]: the TDD patterns of scheduler_tdd_test.cpp and the classification
      of slots the grid allocator reads;
    - [Sched]: allocation results, the slice decorators
      [dl_slice_ue_cell_grid_allocator] / [ul_slice_ue_cell_grid_allocator]
      and the grid allocator [ue_cell_grid_allocator]
      (ue_scheduling/ue_cell_grid_allocator.h), and [SchedProtocol], the
      order in which its operations are called;
    - [NeonFormat], [BoundedIntegerCompare], [SliceSequence]: the wire format
      of the packing, the comparison operators of the bounded integer, and a
      decorator called for a list of requests;
    - [AmfConnectionManager]: the synchronous functions of
      lib/cu_cp/cu_cp_controller/amf_connection_manager.cpp;
    - [PdcpSnUtil]: [get_pdcp_sn] (pdcp/pdcp_sn_util.h).

    The definitions come first; the theorems follow in one module per part
    ([BoundedIntegerProofs], [NeonProofs], [TddProofs], [SliceProofs],
    [GridProofs], [CacheProofs], [NeonFormatProofs],
    [BoundedIntegerCompareProofs], [SliceSequenceProofs],
    [AmfConnectionManagerProofs], [PdcpSnUtilProofs]). Where a function is
    declared in the sources and defined elsewhere, its definition here is
    marked as modelled from the specification. *)

From Stdlib Require Import ZArith List Lia Bool.
From stdpp Require Import gmap list.

(* ===================================================================== *)
(** ** Machine integers *)
(* ===================================================================== *)

Module CInt.
Local Open Scope Z_scope.

(** The integral types the sources instantiate templates and NEON lanes with. *)
Inductive int_type : Type :=
  | uint8_t | uint16_t | uint32_t | uint64_t
  | int8_t | int16_t | int32_t | int64_t.

Definition is_signed (T : int_type) : bool :=
  match T with
  | uint8_t | uint16_t | uint32_t | uint64_t => false
  | int8_t | int16_t | int32_t | int64_t => true
  end.

Definition bits (T : int_type) : Z :=
  match T with
  | uint8_t | int8_t => 8
  | uint16_t | int16_t => 16
  | uint32_t | int32_t => 32
  | uint64_t | int64_t => 64
  end.

(** Reduction of [x] to [w] bits, read as an unsigned number. *)
Definition wrap_u (w x : Z) : Z := x mod 2 ^ w.

(** Reduction of [x] to [w] bits, read in two's complement. *)
Definition wrap_s (w x : Z) : Z := (x + 2 ^ (w - 1)) mod 2 ^ w - 2 ^ (w - 1).

Definition type_min (T : int_type) : Z :=
  if is_signed T then - 2 ^ (bits T - 1) else 0.

Definition type_max (T : int_type) : Z :=
  if is_signed T then 2 ^ (bits T - 1) - 1 else 2 ^ bits T - 1.

(** Integral conversion to [T]: the value modulo [2 ^ bits T]. *)
Definition convert (T : int_type) (v : Z) : Z :=
  if is_signed T then wrap_s (bits T) v else wrap_u (bits T) v.

Definition representable (T : int_type) (v : Z) : Prop :=
  type_min T <= v <= type_max T.

End CInt.

(* ===================================================================== *)
(** ** support: assertions and fatal errors *)
(* ===================================================================== *)

Module Support.

(** What a call that contains an [srsran_assert] or a [report_fatal_error]
    yields: its value, or the failure that aborts the program. *)
Inductive outcome (A : Type) : Type :=
  | Ok (a : A)
  | AssertionFailure
  | FatalError.
Arguments Ok {A} a.
Arguments AssertionFailure {A}.
Arguments FatalError {A}.

End Support.

(* ===================================================================== *)
(** ** adt/bounded_integer.h *)
(* ===================================================================== *)

Module BoundedInteger.
Import CInt Support.
Local Open Scope Z_scope.

(** [class bounded_integer]: the only data member is [Integer value]. *)
Record bounded_integer : Type := { value : Z }.

Section bounded_integer.
(** Template arguments [<typename Integer, Integer MIN_VALUE, Integer MAX_VALUE>]. *)
Variable Integer : int_type.
Variables MIN_VALUE MAX_VALUE : Z.

(** The condition of [assert_bounds(Integer v)]:
    [v >= MIN_VALUE and v <= MAX_VALUE]. *)
Definition in_bounds (v : Z) : bool := (MIN_VALUE <=? v) && (v <=? MAX_VALUE).

(** [void assert_bounds(Integer v) const]. The parameter has type [Integer]:
    an argument of another integral type [U] is converted at the call. *)
Definition assert_bounds (v : Z) : outcome unit :=
  if in_bounds (convert Integer v) then Ok tt else AssertionFailure.

(** [bounded_integer() : value(MAX_VALUE + 1) {}]. The sum is computed after
    integral promotion and converted to [Integer] by the initialiser. (For
    [int32_t] and [int64_t] with [MAX_VALUE] the largest value of the type the
    sum overflows, which C++ leaves undefined; the conversion below then
    stands for the usual wrap-around.) *)
Definition default_ctor : bounded_integer :=
  {| value := convert Integer (MAX_VALUE + 1) |}.

(** [template <typename U> bounded_integer(U v) : value(v) { assert_bounds(v); }],
    [v] being the value of the argument in its own type [U]. *)
Definition ctor (v : Z) : outcome bounded_integer :=
  let this := {| value := convert Integer v |} in
  match assert_bounds v with
  | Ok _ => Ok this
  | AssertionFailure => AssertionFailure
  | FatalError => FatalError
  end.

(** [template <typename U> bounded_integer& operator=(U v)]. *)
Definition assign (this : bounded_integer) (v : Z) : outcome bounded_integer :=
  match assert_bounds v with
  | Ok _ => Ok {| value := convert Integer v |}
  | AssertionFailure => AssertionFailure
  | FatalError => FatalError
  end.

Definition min : Z := MIN_VALUE.
Definition max : Z := MAX_VALUE.

(** [bool is_valid() const]. *)
Definition is_valid (this : bounded_integer) : bool :=
  (MIN_VALUE <=? value this) && (value this <=? MAX_VALUE).

(** [explicit operator Integer() const]. *)
Definition to_Integer (this : bounded_integer) : Z := value this.

End bounded_integer.

(** [using sch_mcs_index = bounded_integer<uint8_t, 0, 31>] (ran/sch_mcs.h). *)
Definition sch_mcs_index_ctor := ctor uint8_t 0 31.
Definition sch_mcs_index_default := default_ctor uint8_t 31.
Definition sch_mcs_index_is_valid := is_valid 0 31.

End BoundedInteger.

(* ===================================================================== *)
(** ** lib/ofh/compression/packing_utils_neon.h *)
(* ===================================================================== *)

Module Neon.
Import CInt Support.
Local Open Scope Z_scope.

(** *** The NEON intrinsics the file uses

    A vector is the list of its lanes, lane 0 first; a lane of a signed vector
    is a number in two's complement range, a lane of an unsigned vector a
    natural number below [2 ^ width]. The target is little-endian: lane [i] of
    a vector of 16-bit lanes covers bytes [2 i] (low) and [2 i + 1] (high). *)

(** [vcreate_s16(uint64_t)]: four 16-bit lanes out of a 64-bit pattern. *)
Definition vcreate_s16 (a : Z) : list Z :=
  map (fun i : nat => wrap_s 16 (Z.shiftr a (16 * Z.of_nat i))) (seq 0 4).

(** [vcreate_u8(uint64_t)]: eight bytes out of a 64-bit pattern. *)
Definition vcreate_u8 (a : Z) : list Z :=
  map (fun i : nat => wrap_u 8 (Z.shiftr a (8 * Z.of_nat i))) (seq 0 8).

Definition vcombine_s16 (low high : list Z) : list Z := low ++ high.
Definition vcombine_u8 (low high : list Z) : list Z := low ++ high.

(** [vshlq_s16(a, b)]: each lane of [a] shifted by the signed low byte of the
    lane of [b], to the left when it is positive and to the right when it is
    negative; the result is truncated to the lane. *)
Definition vshlq_s16 (a b : list Z) : list Z :=
  zip_with (fun x s => wrap_s 16 (Z.shiftl x (wrap_s 8 s))) a b.

(** [vshlq_u16(a, b)]: the same on unsigned lanes. *)
Definition vshlq_u16 (a b : list Z) : list Z :=
  zip_with (fun x s => wrap_u 16 (Z.shiftl x (wrap_s 8 s))) a b.

(** [vshrq_n_s16(a, n)]: arithmetic shift to the right. *)
Definition vshrq_n_s16 (a : list Z) (n : Z) : list Z :=
  map (fun x => Z.shiftr x n) a.

Definition vandq_s16 (a b : list Z) : list Z := zip_with Z.land a b.
Definition vorrq_u8 (a b : list Z) : list Z := zip_with Z.lor a b.

(** Reinterpretations keep the bits of the register. *)
Definition vreinterpretq_s8_s16 (v : list Z) : list Z :=
  flat_map (fun x => [wrap_s 8 x; wrap_s 8 (Z.shiftr x 8)]) v.

Definition vreinterpretq_u8_s8 (v : list Z) : list Z := map (wrap_u 8) v.

Fixpoint vreinterpretq_u16_u8 (v : list Z) : list Z :=
  match v with
  | lo :: hi :: rest => (lo + 256 * hi) :: vreinterpretq_u16_u8 rest
  | _ => []
  end.

Definition vreinterpretq_s16_u16 (v : list Z) : list Z := map (wrap_s 16) v.

Definition vreinterpretq_s16_u8 (v : list Z) : list Z :=
  vreinterpretq_s16_u16 (vreinterpretq_u16_u8 v).

(** Little-endian value of a byte sequence and its inverse. *)
Fixpoint le_combine (bs : list Z) : Z :=
  match bs with
  | [] => 0
  | b :: rest => b + 256 * le_combine rest
  end.

Fixpoint le_split (n : nat) (x : Z) : list Z :=
  match n with
  | O => []
  | S n' => x mod 256 :: le_split n' (x / 256)
  end.

(** [vreinterpret_u64_u8]: the eight bytes of a D register as its one
    64-bit lane. *)
Definition vreinterpret_u64_u8 (v : list Z) : list Z := [le_combine v].

Definition vget_low_u8 (v : list Z) : list Z := take 8 v.

(** Table lookups: an index outside the table yields zero. *)
Definition tbl (table : list Z) (idx : list Z) : list Z :=
  map (fun i => if i <? Z.of_nat (length table)
                then nth (Z.to_nat i) table 0 else 0) idx.

Definition vqtbl1q_s8 (t idx : list Z) : list Z := tbl t idx.
Definition vqtbl1q_u8 (t idx : list Z) : list Z := tbl t idx.

(** [vqtbl2q_u8(uint8x16x2_t, idx)]: the table is [val[0]] followed by [val[1]]. *)
Definition vqtbl2q_u8 (t : list (list Z)) (idx : list Z) : list Z :=
  tbl (nth 0%nat t [] ++ nth 1%nat t []) idx.

Definition vdupq_n_u8 (x : Z) : list Z := replicate 16 x.

(** [vextq_u8(a, b, n)]: bytes [n .. 15] of [a] followed by bytes [0 .. n-1] of [b]. *)
Definition vextq_u8 (a b : list Z) (n : nat) : list Z := drop n a ++ take n b.

(** *** Memory

    A [span] is the list of its elements and a pointer into it an offset.
    Stores write inside the span. *)

Definition vld1q_u8 (mem : list Z) (off : nat) : list Z := take 16 (drop off mem).

Definition vld1q_u8_x3 (mem : list Z) (off : nat) : list (list Z) :=
  [vld1q_u8 mem off; vld1q_u8 mem (off + 16); vld1q_u8 mem (off + 32)].

(** [vst1_u64(uint64_t*, uint64x1_t)] on a byte buffer: the eight bytes of
    the lane, low byte first. *)
Definition vst1_u64 (mem : list Z) (off : nat) (v : list Z) : list Z :=
  list_inserts off (le_split 8 (nth 0%nat v 0)) mem.

(** [vst1q_lane_u8(ptr, v, lane)]: one byte. *)
Definition vst1q_lane_u8 (mem : list Z) (off : nat) (v : list Z) (lane : nat) : list Z :=
  <[off := nth lane v 0]> mem.

(** [vst1q_s8] through an [int8_t*] onto a buffer of [uint8_t]. *)
Definition vst1q_s8 (mem : list Z) (off : nat) (v : list Z) : list Z :=
  list_inserts off (map (wrap_u 8) v) mem.

(** [vst1q_s16] onto a span of [int16_t]; the offset counts elements. *)
Definition vst1q_s16 (mem : list Z) (off : nat) (v : list Z) : list Z :=
  list_inserts off v mem.

(** [int16x8x3_t]: [regs.val[i]]. *)
Definition val (regs : list (list Z)) (i : nat) : list Z := nth i regs [].

(** *** The packing routines *)

(** [pack_neon_register_9b_big_endian]. *)
Definition pack_neon_register_9b_big_endian (reg : list Z) : list Z :=
  let shift_mask_s16 :=
    vcombine_s16 (vcreate_s16 0x0004000500060007) (vcreate_s16 0x0000000100020003) in
  let iq_shl_s16 := vshlq_s16 reg shift_mask_s16 in
  let mask_s16 :=
    vcombine_s16 (vcreate_s16 0x1ff03fe07fc0ff80) (vcreate_s16 0x01ff03fe07fc0ff8) in
  let iq_shl_s16 := vandq_s16 iq_shl_s16 mask_s16 in
  let iq_shl_s8 := vreinterpretq_s8_s16 iq_shl_s16 in
  let tmp_iq_0_s8 :=
    vqtbl1q_s8 iq_shl_s8
      (vcombine_u8 (vcreate_u8 0x0c0a0806040200ff) (vcreate_u8 0xffffffffffffff0e)) in
  let tmp_iq_1_s8 :=
    vqtbl1q_s8 iq_shl_s8
      (vcombine_u8 (vcreate_u8 0x0f0d0b0907050301) (vcreate_u8 0xffffffffffffffff)) in
  vorrq_u8 (vreinterpretq_u8_s8 tmp_iq_0_s8) (vreinterpretq_u8_s8 tmp_iq_1_s8).

Definition BYTES_PER_PRB_9BIT_COMPRESSION : nat := 27.
Definition bytes_per_half_reg : nat := 8.

(** [pack_prb_9b_big_endian(comp_prb_buffer, regs)]: the buffer after the call. *)
Definition pack_prb_9b_big_endian (comp_prb_buffer : list Z) (regs : list (list Z))
  : outcome (list Z) :=
  if negb (length comp_prb_buffer =? BYTES_PER_PRB_9BIT_COMPRESSION)%nat
  then AssertionFailure
  else
    let res_packed_bytes_0_u8 := pack_neon_register_9b_big_endian (val regs 0) in
    let res_packed_bytes_1_u8 := pack_neon_register_9b_big_endian (val regs 1) in
    let res_packed_bytes_2_u8 := pack_neon_register_9b_big_endian (val regs 2) in
    let data := 0%nat in
    let mem := comp_prb_buffer in
    let mem := vst1_u64 mem data (vreinterpret_u64_u8 (vget_low_u8 res_packed_bytes_0_u8)) in
    let mem := vst1q_lane_u8 mem (data + bytes_per_half_reg) res_packed_bytes_0_u8
                 bytes_per_half_reg in
    let data := (data + (bytes_per_half_reg + 1))%nat in
    let mem := vst1_u64 mem data (vreinterpret_u64_u8 (vget_low_u8 res_packed_bytes_1_u8)) in
    let mem := vst1q_lane_u8 mem (data + bytes_per_half_reg) res_packed_bytes_1_u8
                 bytes_per_half_reg in
    let data := (data + (bytes_per_half_reg + 1))%nat in
    let mem := vst1_u64 mem data (vreinterpret_u64_u8 (vget_low_u8 res_packed_bytes_2_u8)) in
    let mem := vst1q_lane_u8 mem (data + bytes_per_half_reg) res_packed_bytes_2_u8
                 bytes_per_half_reg in
    Ok mem.

Definition BYTES_PER_PRB_16BIT_COMPRESSION : nat := 48.
Definition NEON_REG_SIZE_BYTES : nat := 16.

(** [pack_prb_16b_big_endian(comp_prb_buffer, regs)]. *)
Definition pack_prb_16b_big_endian (comp_prb_buffer : list Z) (regs : list (list Z))
  : outcome (list Z) :=
  if negb (length comp_prb_buffer =? BYTES_PER_PRB_16BIT_COMPRESSION)%nat
  then AssertionFailure
  else
    let shuffle_mask_u8 :=
      vcombine_u8 (vcreate_u8 0x0607040502030001) (vcreate_u8 0x0e0f0c0d0a0b0809) in
    let regs_shuffled_0 := vqtbl1q_s8 (vreinterpretq_s8_s16 (val regs 0)) shuffle_mask_u8 in
    let regs_shuffled_1 := vqtbl1q_s8 (vreinterpretq_s8_s16 (val regs 1)) shuffle_mask_u8 in
    let regs_shuffled_2 := vqtbl1q_s8 (vreinterpretq_s8_s16 (val regs 2)) shuffle_mask_u8 in
    let data := 0%nat in
    let mem := comp_prb_buffer in
    let mem := vst1q_s8 mem data regs_shuffled_0 in
    let mem := vst1q_s8 mem (data + NEON_REG_SIZE_BYTES) regs_shuffled_1 in
    let mem := vst1q_s8 mem (data + NEON_REG_SIZE_BYTES * 2) regs_shuffled_2 in
    Ok mem.

(** [pack_prb_big_endian(comp_prb_buffer, regs, iq_width)]. *)
Definition pack_prb_big_endian (comp_prb_buffer : list Z) (regs : list (list Z))
    (iq_width : Z) : outcome (list Z) :=
  if iq_width =? 9 then pack_prb_9b_big_endian comp_prb_buffer regs
  else if iq_width =? 16 then pack_prb_16b_big_endian comp_prb_buffer regs
  else FatalError.

(** [unpack_prb_9b_big_endian(unpacked_iq_data, packed_data)]: the contents of
    [unpacked_iq_data] after the call. *)
Definition unpack_prb_9b_big_endian (unpacked_iq_data packed_data : list Z) : list Z :=
  let val0 := vld1q_u8 packed_data 0 in
  let val1 := vld1q_u8 packed_data 11 in
  let val1 := vextq_u8 val1 (vdupq_n_u8 0) 5 in
  let packed_vec_u8x2 := [val0; val1] in
  let tmp_packed_0_u8 :=
    vqtbl2q_u8 packed_vec_u8x2
      (vcombine_u8 (vcreate_u8 0x0304020301020001) (vcreate_u8 0x0708060705060405)) in
  let tmp_packed_1_u8 :=
    vqtbl2q_u8 packed_vec_u8x2
      (vcombine_u8 (vcreate_u8 0x0c0d0b0c0a0b090a) (vcreate_u8 0x10110f100e0f0d0e)) in
  let tmp_packed_2_u8 :=
    vqtbl2q_u8 packed_vec_u8x2
      (vcombine_u8 (vcreate_u8 0x1516141513141213) (vcreate_u8 0x191a181917181617)) in
  let shl_mask_s16 :=
    vcombine_s16 (vcreate_s16 0x0003000200010000) (vcreate_s16 0x0007000600050004) in
  let shl_tmp_packed_0_u8 := vshlq_u16 (vreinterpretq_u16_u8 tmp_packed_0_u8) shl_mask_s16 in
  let shl_tmp_packed_1_u8 := vshlq_u16 (vreinterpretq_u16_u8 tmp_packed_1_u8) shl_mask_s16 in
  let shl_tmp_packed_2_u8 := vshlq_u16 (vreinterpretq_u16_u8 tmp_packed_2_u8) shl_mask_s16 in
  let unpacked_data_0_s16 := vshrq_n_s16 (vreinterpretq_s16_u16 shl_tmp_packed_0_u8) 7 in
  let unpacked_data_1_s16 := vshrq_n_s16 (vreinterpretq_s16_u16 shl_tmp_packed_1_u8) 7 in
  let unpacked_data_2_s16 := vshrq_n_s16 (vreinterpretq_s16_u16 shl_tmp_packed_2_u8) 7 in
  let out := unpacked_iq_data in
  let out := vst1q_s16 out 0 unpacked_data_0_s16 in
  let out := vst1q_s16 out 8 unpacked_data_1_s16 in
  let out := vst1q_s16 out 16 unpacked_data_2_s16 in
  out.

(** [unpack_prb_16b_big_endian(unpacked_iq_data, packed_data)]. *)
Definition unpack_prb_16b_big_endian (unpacked_iq_data packed_data : list Z) : list Z :=
  let shuffle_mask_u8 :=
    vcombine_u8 (vcreate_u8 0x0607040502030001) (vcreate_u8 0x0e0f0c0d0a0b0809) in
  let packed_vec_u8x3 := vld1q_u8_x3 packed_data 0 in
  let packed_shuffled_0 := vqtbl1q_u8 (val packed_vec_u8x3 0) shuffle_mask_u8 in
  let packed_shuffled_1 := vqtbl1q_u8 (val packed_vec_u8x3 1) shuffle_mask_u8 in
  let packed_shuffled_2 := vqtbl1q_u8 (val packed_vec_u8x3 2) shuffle_mask_u8 in
  let out := unpacked_iq_data in
  let out := vst1q_s16 out 0 (vreinterpretq_s16_u8 packed_shuffled_0) in
  let out := vst1q_s16 out 8 (vreinterpretq_s16_u8 packed_shuffled_1) in
  let out := vst1q_s16 out 16 (vreinterpretq_s16_u8 packed_shuffled_2) in
  out.

(** [unpack_prb_big_endian(unpacked_iq_data, packed_data, iq_width)]. *)
Definition unpack_prb_big_endian (unpacked_iq_data packed_data : list Z) (iq_width : Z)
  : outcome (list Z) :=
  if iq_width =? 9 then Ok (unpack_prb_9b_big_endian unpacked_iq_data packed_data)
  else if iq_width =? 16 then Ok (unpack_prb_16b_big_endian unpacked_iq_data packed_data)
  else FatalError.

(** [iq_width_packing_supported(iq_width)]. *)
Definition iq_width_packing_supported (iq_width : Z) : bool :=
  (iq_width =? 9) || (iq_width =? 16).

(** *** Lanes

    The vocabulary of the statements about the packing: samples, bytes, and
    what the routines compute on one lane. *)

(** A sample that fits in nine bits, and a byte. *)
Definition nine_bit (x : Z) : Prop := -256 <= x <= 255.
Definition is_byte (b : Z) : Prop := 0 <= b < 256.

Definition int16 (x : Z) : Prop := -32768 <= x <= 32767.


(** Exhaustive check of a predicate over [n] numbers from [lo] on. *)
Fixpoint forall_range (n : nat) (lo : Z) (p : Z -> bool) : bool :=
  match n with
  | O => true
  | S n' => p lo && forall_range n' (lo + 1) p
  end.


(** Lane [k] of the packing: shift by [s], mask with [m]. *)
Definition shl_and (s m x : Z) : Z := Z.land (wrap_s 16 (Z.shiftl x (wrap_s 8 s))) m.
Definition lo8 (v : Z) : Z := wrap_u 8 (wrap_s 8 v).
Definition hi8 (v : Z) : Z := wrap_u 8 (wrap_s 8 (Z.shiftr v 8)).

Definition lane_shift (k : Z) : Z := 7 - k.
Definition lane_mask (k : Z) : Z := wrap_s 16 (Z.shiftl 511 (7 - k)).
Definition pack_lane (k x : Z) : Z := shl_and (lane_shift k) (lane_mask k) x.

(** Lane [k] of the unpacking, from the two bytes [a] (first) and [b] that
    hold the sample. *)
Definition unpack_lane (k a b : Z) : Z :=
  Z.shiftr (wrap_s 16 (wrap_u 16 (Z.shiftl (b + 256 * a) (wrap_s 8 k)))) 7.

(** The two bytes of lane [k] hold the nine bits of the sample, moved
    [7 - k] places to the left. *)
Definition lane_bytes_check (k : Z) : bool :=
  forall_range 512 (-256) (fun x =>
    let v := pack_lane k x in
    (0 <=? lo8 v) && (0 <=? hi8 v)
    && (lo8 v + 256 * hi8 v =? (x mod 512) * 2 ^ (7 - k))
    && (lo8 v =? (x mod 2 ^ (k + 1)) * 2 ^ (7 - k))).

(** The nine bytes a register packs into, read back lane by lane. *)
Definition unpack_reg (q : list Z) : list Z :=
  map (fun k : nat => unpack_lane (Z.of_nat k) (nth k q 0) (nth (S k) q 0)) (seq 0 8).

End Neon.


(* ===================================================================== *)
(** ** The TDD pattern evaluator *)
(* ===================================================================== *)

Module Tdd.

Inductive subcarrier_spacing : Type := kHz15 | kHz30 | kHz60 | kHz120 | kHz240.

(** The pattern as the test parameters write it:
    [{slot_period, DL_slots, DL_symbols, UL_slots, UL_symbols}]. *)
Record tdd_ul_dl_pattern : Type := {
  dl_ul_tx_period_nof_slots : nat;
  nof_dl_slots : nat;
  nof_dl_symbols : nat;
  nof_ul_slots : nat;
  nof_ul_symbols : nat
}.

(** [test_params{ref_scs, pattern1, pattern2}]. *)
Record tdd_ul_dl_config_common : Type := {
  ref_scs : subcarrier_spacing;
  pattern1 : tdd_ul_dl_pattern;
  pattern2 : option tdd_ul_dl_pattern
}.

Definition NOF_OFDM_SYM_PER_SLOT : nat := 14.

(** A slot is all downlink, all uplink, or special: downlink symbols at its
    start, uplink symbols at its end, the symbols between used by neither. *)
Inductive slot_class : Type :=
  | fully_dl
  | fully_ul
  | special (dl_symbols ul_symbols : nat).

Global Instance slot_class_eq_dec : EqDecision slot_class.
Proof. solve_decision. Defined.

(** Modelled from the spec: the classification of slot [i] of one pattern
    (the helpers of ran/tdd are not among the sources). The downlink slots
    open the period and the uplink slots close it; the slot after the last
    downlink slot carries the downlink symbols and the slot before the first
    uplink slot the uplink symbols. *)
Definition classify_in_pattern (p : tdd_ul_dl_pattern) (i : nat) : slot_class :=
  if i <? nof_dl_slots p then fully_dl
  else if dl_ul_tx_period_nof_slots p - nof_ul_slots p <=? i then fully_ul
  else special
         (if i =? nof_dl_slots p then nof_dl_symbols p else 0)
         (if S i =? dl_ul_tx_period_nof_slots p - nof_ul_slots p
          then nof_ul_symbols p else 0).

(** Modelled from the spec: two patterns, if present, concatenate; the
    period is the sum of theirs. *)
Definition nof_slots_per_tdd_period (cfg : tdd_ul_dl_config_common) : nat :=
  dl_ul_tx_period_nof_slots (pattern1 cfg)
  + match pattern2 cfg with
    | Some p2 => dl_ul_tx_period_nof_slots p2
    | None => 0
    end.

(** Modelled from the spec: the classification of a slot uses its index
    modulo the combined period; the indices of the first pattern's range are
    classified by the first pattern, the rest by the second. *)
Definition classify (cfg : tdd_ul_dl_config_common) (slot_index : nat) : slot_class :=
  let i := slot_index mod nof_slots_per_tdd_period cfg in
  if i <? dl_ul_tx_period_nof_slots (pattern1 cfg)
  then classify_in_pattern (pattern1 cfg) i
  else match pattern2 cfg with
       | Some p2 => classify_in_pattern p2 (i - dl_ul_tx_period_nof_slots (pattern1 cfg))
       | None => classify_in_pattern (pattern1 cfg) i
       end.

(** The configurations of scheduler_tdd_test.cpp: the one the suite runs and
    the two it leaves out. *)
Definition test_params_10_6_4_3_4 : tdd_ul_dl_config_common :=
  {| ref_scs := kHz30;
     pattern1 := {| dl_ul_tx_period_nof_slots := 10; nof_dl_slots := 6;
                    nof_dl_symbols := 4; nof_ul_slots := 3; nof_ul_symbols := 4 |};
     pattern2 := None |}.

Definition test_params_6_3_4_2_4_then_4_4_0_0_0 : tdd_ul_dl_config_common :=
  {| ref_scs := kHz30;
     pattern1 := {| dl_ul_tx_period_nof_slots := 6; nof_dl_slots := 3;
                    nof_dl_symbols := 4; nof_ul_slots := 2; nof_ul_symbols := 4 |};
     pattern2 := Some {| dl_ul_tx_period_nof_slots := 4; nof_dl_slots := 4;
                         nof_dl_symbols := 0; nof_ul_slots := 0; nof_ul_symbols := 0 |} |}.

End Tdd.

(* ===================================================================== *)
(** ** The grid allocator and its slice decorators
       (ue_scheduling/ue_cell_grid_allocator.h) *)
(* ===================================================================== *)

Module Sched.

Definition du_cell_index_t : Type := nat.
Definition du_ue_index_t : Type := nat.
Definition ran_slice_id_t : Type := nat.

(** A slot point, by its slot count. *)
Definition slot_point : Type := nat.

Inductive direction : Type := DL | UL.

Global Instance direction_eq_dec : EqDecision direction.
Proof. solve_decision. Defined.

(** Modelled from the spec: [alloc_status] and [alloc_result] are declared in
    policy/ue_allocator.h, which is not among the sources. An allocation
    result is a tagged outcome: success with the count of resource blocks
    granted, or a failure that says why. *)
Inductive alloc_failure : Type :=
  | no_pdcch_candidate
  | no_pucch_resource
  | no_rb_capacity
  | unknown_cell.

Inductive alloc_status : Type :=
  | success
  | failure (reason : alloc_failure).

Global Instance alloc_failure_eq_dec : EqDecision alloc_failure.
Proof. solve_decision. Defined.
Global Instance alloc_status_eq_dec : EqDecision alloc_status.
Proof. solve_decision. Defined.

Record alloc_result : Type := {
  status : alloc_status;
  alloc_nof_rbs : nat
}.

(** Modelled from the spec: a grant request ([ue_pdsch_grant],
    [ue_pusch_grant]) names the terminal, the cell and the count of resource
    blocks wanted. *)
Record ue_grant : Type := {
  user : du_ue_index_t;
  cell_index : du_cell_index_t;
  nof_rbs : nat
}.

Definition ue_pdsch_grant : Type := ue_grant.
Definition ue_pusch_grant : Type := ue_grant.

(** *** Slice decorators

    [dl_slice_ue_cell_grid_allocator] and [ul_slice_ue_cell_grid_allocator]
    hold references to the allocator they wrap and to a slice candidate.
    The calls they make on the two are recorded as they happen. *)

Inductive call : Type :=
  | call_allocate (dir : direction) (grant : ue_grant) (slice_id : ran_slice_id_t)
  | call_store_grant (nof_rbs : nat).

Section slice_decorator.
(** The state of the wrapped [ue_cell_grid_allocator] and of the slice
    candidate ([dl_ran_slice_candidate] or [ul_ran_slice_candidate]). *)
Context {Alloc Candidate : Type}.

(** The members of the wrapped objects the decorators call:
    [ue_cell_grid_allocator::allocate_dl_grant] / [allocate_ul_grant], and the
    candidate's [id()] and [store_grant(nof_rbs)]. *)
Variable wrapped_allocate :
  direction -> ue_grant -> ran_slice_id_t -> Alloc -> alloc_result * Alloc.
Variable id : Candidate -> ran_slice_id_t.
Variable store_grant : nat -> Candidate -> Candidate.

(** What the references of a decorator lead to, with the calls made so far. *)
Record world : Type := {
  w_alloc : Alloc;
  w_candidate : Candidate;
  w_calls : list call
}.

(** Computations on the referenced objects. *)
Definition M (A : Type) : Type := world -> A * world.

Definition ret {A : Type} (a : A) : M A := fun w => (a, w).

Definition bind {A B : Type} (m : M A) (k : A -> M B) : M B :=
  fun w => let (a, w') := m w in k a w'.

(** [slice_candidate.id()]. *)
Definition slice_candidate_id : M ran_slice_id_t :=
  fun w => (id (w_candidate w), w).

(** [pdsch_alloc.allocate_dl_grant(grant, slice_id)] and
    [pusch_alloc.allocate_ul_grant(grant, slice_id)]. *)
Definition alloc_allocate (dir : direction) (grant : ue_grant) (slice_id : ran_slice_id_t)
  : M alloc_result :=
  fun w =>
    let (result, a') := wrapped_allocate dir grant slice_id (w_alloc w) in
    (result, {| w_alloc := a'; w_candidate := w_candidate w;
                w_calls := w_calls w ++ [call_allocate dir grant slice_id] |}).

(** [slice_candidate.store_grant(nof_rbs)]. *)
Definition slice_candidate_store_grant (n : nat) : M unit :=
  fun w =>
    (tt, {| w_alloc := w_alloc w; w_candidate := store_grant n (w_candidate w);
            w_calls := w_calls w ++ [call_store_grant n] |}).

(** [dl_slice_ue_cell_grid_allocator::allocate_dl_grant(grant)]. *)
Definition dl_slice_allocate_dl_grant (grant : ue_pdsch_grant) : M alloc_result :=
  bind slice_candidate_id (fun sid =>
  bind (alloc_allocate DL grant sid) (fun result =>
  if decide (status result = success)
  then bind (slice_candidate_store_grant (alloc_nof_rbs result)) (fun _ => ret result)
  else ret result)).

(** [ul_slice_ue_cell_grid_allocator::allocate_ul_grant(grant)]. *)
Definition ul_slice_allocate_ul_grant (grant : ue_pusch_grant) : M alloc_result :=
  bind slice_candidate_id (fun sid =>
  bind (alloc_allocate UL grant sid) (fun result =>
  if decide (status result = success)
  then bind (slice_candidate_store_grant (alloc_nof_rbs result)) (fun _ => ret result)
  else ret result)).

(** The decorator of a direction. *)
Definition decorated (dir : direction) : ue_grant -> M alloc_result :=
  match dir with
  | DL => dl_slice_allocate_dl_grant
  | UL => ul_slice_allocate_ul_grant
  end.

End slice_decorator.

(** Modelled from the spec: a slice candidate ([ran_slice_candidate.h] is not
    among the sources) carries the slice id and the count of resource blocks
    the slice has used in the window; [store_grant] adds to the count. *)
Record ran_slice_candidate : Type := {
  slice_id : ran_slice_id_t;
  rb_count : nat
}.

Definition ran_slice_candidate_store_grant (n : nat) (c : ran_slice_candidate)
  : ran_slice_candidate :=
  {| slice_id := slice_id c; rb_count := rb_count c + n |}.

(** *** The resource grid

    Modelled from the spec: the resource grid ([cell/resource_grid.h] is not
    among the sources). A cell keeps one grid per slot of the look-ahead
    window, in an array indexed by the slot modulo the length of the window.
    A grid records, per direction, which resource block is taken at which
    symbol and by whom, and the grants placed in the slot. *)

(** A resource block at a symbol. *)
Definition rb_symbol : Type := (nat * nat)%type.

Inductive occupant : Type :=
  | control
  | allocated (ue : du_ue_index_t).

(** A grant: terminal, cell, slot, direction, the set of resource blocks and
    the range of symbols [first, stop). *)
Record grant : Type := {
  g_ue : du_ue_index_t;
  g_cell : du_cell_index_t;
  g_slot : slot_point;
  g_dir : direction;
  g_slice : ran_slice_id_t;
  g_rbs : list nat;
  g_symbols : nat * nat
}.

Definition symbol_range (symbols : nat * nat) : list nat :=
  seq (fst symbols) (snd symbols - fst symbols).

(** The positions of the grid a grant covers. *)
Definition grant_positions (g : grant) : list rb_symbol :=
  flat_map (fun rb => map (fun sym => (rb, sym)) (symbol_range (g_symbols g))) (g_rbs g).

Record slot_grid : Type := {
  sg_slot : slot_point;
  sg_dl : gmap rb_symbol occupant;
  sg_ul : gmap rb_symbol occupant;
  sg_grants : list grant
}.

Definition occupancy (dir : direction) (sg : slot_grid) : gmap rb_symbol occupant :=
  match dir with DL => sg_dl sg | UL => sg_ul sg end.

Definition empty_grid (s : slot_point) : slot_grid :=
  {| sg_slot := s; sg_dl := ∅; sg_ul := ∅; sg_grants := [] |}.

Definition is_free (occ : gmap rb_symbol occupant) (p : rb_symbol) : bool :=
  bool_decide (occ !! p = None).

(** Modelled from the spec: reserving positions checks them first; a
    position already taken makes the reservation fail, and nothing is written. *)
Definition reserve (occ : gmap rb_symbol occupant) (ps : list rb_symbol) (who : occupant)
  : option (gmap rb_symbol occupant) :=
  if forallb (is_free occ) ps
  then Some (foldr (fun p m => <[p := who]> m) occ ps)
  else None.

(** Modelled from the spec: the resource allocator of a cell, with the static
    configuration the allocator reads (count of resource blocks, TDD pattern
    if the cell is TDD), the slot being scheduled and the window of grids. *)
Record cell_resource_allocator : Type := {
  cell_nof_rbs : nat;
  cell_tdd : option Tdd.tdd_ul_dl_config_common;
  slot_tx : slot_point;
  ring : list slot_grid
}.

(** A fresh window of [n] grids for the slots [0 .. n - 1]. *)
Definition make_cell_resource_allocator (nrbs : nat)
    (tdd : option Tdd.tdd_ul_dl_config_common) (n : nat) : cell_resource_allocator :=
  {| cell_nof_rbs := nrbs; cell_tdd := tdd; slot_tx := 0;
     ring := map empty_grid (seq 0 n) |}.

(** The grid of slot [s], if the window holds it. *)
Definition grid_at (ca : cell_resource_allocator) (s : slot_point) : option slot_grid :=
  match ring ca !! (s mod length (ring ca)) with
  | Some sg => if decide (sg_slot sg = s) then Some sg else None
  | None => None
  end.

Definition set_grid (ca : cell_resource_allocator) (sg : slot_grid) : cell_resource_allocator :=
  {| cell_nof_rbs := cell_nof_rbs ca; cell_tdd := cell_tdd ca; slot_tx := slot_tx ca;
     ring := <[sg_slot sg mod length (ring ca) := sg]> (ring ca) |}.

(** Rolling the window to slot [sl]: the array entry of the slot that enters
    the window is overwritten, which closes the slot it held. *)
Definition cell_slot_indication (sl : slot_point) (ca : cell_resource_allocator)
  : cell_resource_allocator :=
  set_grid {| cell_nof_rbs := cell_nof_rbs ca; cell_tdd := cell_tdd ca; slot_tx := sl;
              ring := ring ca |}
           (empty_grid (sl + length (ring ca) - 1)).

(** The symbols of slot [s] a direction may use: all of them on an FDD cell
    or in a slot that is fully of that direction, the leading or trailing ones
    of a special slot. *)
Definition symbols_for (tdd : option Tdd.tdd_ul_dl_config_common) (dir : direction)
    (s : slot_point) : option (nat * nat) :=
  match tdd with
  | None => Some (0, Tdd.NOF_OFDM_SYM_PER_SLOT)
  | Some cfg =>
      match Tdd.classify cfg s, dir with
      | Tdd.fully_dl, DL => Some (0, Tdd.NOF_OFDM_SYM_PER_SLOT)
      | Tdd.fully_ul, UL => Some (0, Tdd.NOF_OFDM_SYM_PER_SLOT)
      | Tdd.special d _, DL => if d =? 0 then None else Some (0, d)
      | Tdd.special _ u, UL =>
          if u =? 0 then None
          else Some (Tdd.NOF_OFDM_SYM_PER_SLOT - u, Tdd.NOF_OFDM_SYM_PER_SLOT)
      | _, _ => None
      end
  end.

(** The resource blocks free over a range of symbols. *)
Definition free_rbs (occ : gmap rb_symbol occupant) (nrbs : nat) (symbols : nat * nat)
  : list nat :=
  filter (fun rb => forallb (fun sym => is_free occ (rb, sym)) (symbol_range symbols) = true)
         (seq 0 nrbs).

Inductive slot_space : Type :=
  | space_found (rbs : list nat) (symbols : nat * nat)
  | no_space
  | not_schedulable.

Global Instance slot_space_eq_dec : EqDecision slot_space.
Proof. solve_decision. Defined.

(** The placement search in one slot: up to [n] of the free resource blocks;
    a slot without any free resource block has no space. *)
Definition find_space (dir : direction) (ca : cell_resource_allocator)
    (s : slot_point) (n : nat) : slot_space :=
  match grid_at ca s, symbols_for (cell_tdd ca) dir s with
  | Some sg, Some symbols =>
      match free_rbs (occupancy dir sg) (cell_nof_rbs ca) symbols with
      | [] => no_space
      | rbs => space_found (take n rbs) symbols
      end
  | _, _ => not_schedulable
  end.

(** *** The allocator *)

(** Modelled from the spec: the control-channel allocators
    ([pdcch_resource_allocator], [uci_allocator]; their headers are not among
    the sources) as pools of a fixed count of candidates per slot. *)
Record resource_pool : Type := {
  pool_size : nat;
  pool_allocs : list (slot_point * du_ue_index_t)
}.

Definition pool_used (s : slot_point) (p : resource_pool) : nat :=
  length (filter (fun a => fst a = s) (pool_allocs p)).

Definition pool_reserve (s : slot_point) (ue : du_ue_index_t) (p : resource_pool)
  : option resource_pool :=
  if pool_used s p <? pool_size p
  then Some {| pool_size := pool_size p; pool_allocs := pool_allocs p ++ [(s, ue)] |}
  else None.

Definition pool_slot_indication (sl : slot_point) (p : resource_pool) : resource_pool :=
  {| pool_size := pool_size p;
     pool_allocs := filter (fun a => sl <= fst a) (pool_allocs p) |}.

(** [struct cell_t]. The struct holds pointers; here it holds what they point to. *)
Record cell_t : Type := {
  c_cell_index : du_cell_index_t;
  pdcch_sched : resource_pool;
  uci_alloc : resource_pool;
  cell_alloc : cell_resource_allocator
}.

(** What the allocator reads of [scheduler_ue_expert_config] and of the
    constants [SCHEDULER_MAX_K0], [SCHEDULER_MAX_K2], [MAX_NOF_DU_CELLS]
    (their headers are not among the sources). *)
Record scheduler_ue_expert_config : Type := {
  MAX_NOF_DU_CELLS : nat;
  SCHEDULER_MAX_K0 : nat;
  SCHEDULER_MAX_K2 : nat;
  ack_delay : nat;
  ack_required : du_ue_index_t -> slot_point -> bool
}.

(** [class ue_cell_grid_allocator]: the data members of the class the model
    needs, under their names. The two [static_vector<slot_point, MAX_N>] are
    held as the lists of their elements; their capacities are
    [SCHEDULER_MAX_K0] and [SCHEDULER_MAX_K2] of the configuration. That the
    allocator never holds more slots than the capacity allows, in a run that
    calls the operations in the order of the spec, is proved with the lists
    ([CacheProofs]); a run outside that order, with a cell added after a slot
    indication, can make a list longer here, where the vector of the code has
    no room. *)
Record ue_cell_grid_allocator : Type := {
  expert_cfg : scheduler_ue_expert_config;
  cells : gmap du_cell_index_t cell_t;
  slots_with_no_pdsch_space : list slot_point;
  slots_with_no_pusch_space : list slot_point;
  dl_attempts_count : nat;
  ul_attempts_count : nat
}.

(** The constructor. *)
Definition make_ue_cell_grid_allocator (cfg : scheduler_ue_expert_config)
  : ue_cell_grid_allocator :=
  {| expert_cfg := cfg; cells := ∅;
     slots_with_no_pdsch_space := []; slots_with_no_pusch_space := [];
     dl_attempts_count := 0; ul_attempts_count := 0 |}.

(** [bool has_cell(du_cell_index_t cell_index) const]. *)
Definition has_cell (a : ue_cell_grid_allocator) (idx : du_cell_index_t) : bool :=
  bool_decide (is_Some (cells a !! idx)).

(** [size_t nof_cells() const]. *)
Definition nof_cells (a : ue_cell_grid_allocator) : nat := size (cells a).

(** Modelled from the spec: [add_cell(cell_index, pdcch_sched, uci_alloc,
    cell_alloc)] (the body is not among the sources) registers the cell under
    its index. *)
Definition add_cell (idx : du_cell_index_t) (pdcch uci : resource_pool)
    (ca : cell_resource_allocator) (a : ue_cell_grid_allocator) : ue_cell_grid_allocator :=
  if (idx <? MAX_NOF_DU_CELLS (expert_cfg a)) && negb (has_cell a idx)
  then {| expert_cfg := expert_cfg a;
          cells := <[idx := {| c_cell_index := idx; pdcch_sched := pdcch;
                               uci_alloc := uci; cell_alloc := ca |}]> (cells a);
          slots_with_no_pdsch_space := slots_with_no_pdsch_space a;
          slots_with_no_pusch_space := slots_with_no_pusch_space a;
          dl_attempts_count := dl_attempts_count a;
          ul_attempts_count := ul_attempts_count a |}
  else a.

(** Modelled from the spec: [slot_indication(sl)] (the body is not among the
    sources) advances the window of every cell and clears the two lists of
    slots known to be full and the counts of attempts. *)
Definition slot_indication (sl : slot_point) (a : ue_cell_grid_allocator)
  : ue_cell_grid_allocator :=
  {| expert_cfg := expert_cfg a;
     cells := (fun c => {| c_cell_index := c_cell_index c;
                           pdcch_sched := pool_slot_indication sl (pdcch_sched c);
                           uci_alloc := pool_slot_indication sl (uci_alloc c);
                           cell_alloc := cell_slot_indication sl (cell_alloc c) |})
              <$> cells a;
     slots_with_no_pdsch_space := [];
     slots_with_no_pusch_space := [];
     dl_attempts_count := 0;
     ul_attempts_count := 0 |}.

Definition no_space_slots (dir : direction) (a : ue_cell_grid_allocator) : list slot_point :=
  match dir with
  | DL => slots_with_no_pdsch_space a
  | UL => slots_with_no_pusch_space a
  end.

(** The slots a grant may be placed in, from the slot being scheduled on. *)
Definition candidate_slots (cfg : scheduler_ue_expert_config) (dir : direction)
    (sl : slot_point) : list slot_point :=
  map (fun k => sl + k)
      (seq 0 (match dir with DL => SCHEDULER_MAX_K0 cfg | UL => SCHEDULER_MAX_K2 cfg end)).

Record placement : Type := {
  pl_slot : slot_point;
  pl_rbs : list nat;
  pl_symbols : nat * nat
}.

(** What a search over the candidate slots yields: the placement found, the
    slots the placement search ran on, and the list of slots known to be full
    as the search leaves it. *)
Record search_result : Type := {
  sr_found : option placement;
  sr_searched : list slot_point;
  sr_no_space : list slot_point
}.

(** Modelled from the spec: the search for the first slot with space. A slot
    in the list of full slots is skipped; a slot found full is added to it. *)
Fixpoint search_slots (dir : direction) (ca : cell_resource_allocator) (n : nat)
    (candidates full : list slot_point) : search_result :=
  match candidates with
  | [] => {| sr_found := None; sr_searched := []; sr_no_space := full |}
  | s :: rest =>
      if bool_decide (s ∈ full) then search_slots dir ca n rest full
      else
        match find_space dir ca s n with
        | space_found rbs symbols =>
            {| sr_found := Some {| pl_slot := s; pl_rbs := rbs; pl_symbols := symbols |};
               sr_searched := [s]; sr_no_space := full |}
        | no_space =>
            let r := search_slots dir ca n rest (full ++ [s]) in
            {| sr_found := sr_found r; sr_searched := s :: sr_searched r;
               sr_no_space := sr_no_space r |}
        | not_schedulable =>
            let r := search_slots dir ca n rest full in
            {| sr_found := sr_found r; sr_searched := s :: sr_searched r;
               sr_no_space := sr_no_space r |}
        end
  end.

(** Writing a placement into the grid of its slot. *)
Definition place (dir : direction) (req : ue_grant) (slice : ran_slice_id_t)
    (pl : placement) (ca : cell_resource_allocator) : option cell_resource_allocator :=
  match grid_at ca (pl_slot pl) with
  | None => None
  | Some sg =>
      let g := {| g_ue := user req; g_cell := cell_index req; g_slot := pl_slot pl;
                  g_dir := dir; g_slice := slice; g_rbs := pl_rbs pl;
                  g_symbols := pl_symbols pl |} in
      match reserve (occupancy dir sg) (grant_positions g) (allocated (user req)) with
      | None => None
      | Some occ' =>
          Some (set_grid ca
                  {| sg_slot := sg_slot sg;
                     sg_dl := match dir with DL => occ' | UL => sg_dl sg end;
                     sg_ul := match dir with DL => sg_ul sg | UL => occ' end;
                     sg_grants := sg_grants sg ++ [g] |})
      end
  end.

Definition failed (reason : alloc_failure) : alloc_result :=
  {| status := failure reason; alloc_nof_rbs := 0 |}.

Definition with_no_space_slots (dir : direction) (full : list slot_point)
    (a : ue_cell_grid_allocator) : ue_cell_grid_allocator :=
  {| expert_cfg := expert_cfg a; cells := cells a;
     slots_with_no_pdsch_space :=
       match dir with DL => full | UL => slots_with_no_pdsch_space a end;
     slots_with_no_pusch_space :=
       match dir with DL => slots_with_no_pusch_space a | UL => full end;
     dl_attempts_count := dl_attempts_count a;
     ul_attempts_count := ul_attempts_count a |}.

(** One more attempt in the direction ("number of allocation attempts for DL
    and UL in the given slot"). *)
Definition count_attempt (dir : direction) (a : ue_cell_grid_allocator)
  : ue_cell_grid_allocator :=
  {| expert_cfg := expert_cfg a; cells := cells a;
     slots_with_no_pdsch_space := slots_with_no_pdsch_space a;
     slots_with_no_pusch_space := slots_with_no_pusch_space a;
     dl_attempts_count :=
       match dir with DL => S (dl_attempts_count a) | UL => dl_attempts_count a end;
     ul_attempts_count :=
       match dir with DL => ul_attempts_count a | UL => S (ul_attempts_count a) end |}.

Definition with_cell (idx : du_cell_index_t) (c : cell_t) (a : ue_cell_grid_allocator)
  : ue_cell_grid_allocator :=
  {| expert_cfg := expert_cfg a; cells := <[idx := c]> (cells a);
     slots_with_no_pdsch_space := slots_with_no_pdsch_space a;
     slots_with_no_pusch_space := slots_with_no_pusch_space a;
     dl_attempts_count := dl_attempts_count a;
     ul_attempts_count := ul_attempts_count a |}.

(** Modelled from the spec: the allocation of one grant (the bodies of
    [allocate_dl_grant] and [allocate_ul_grant] are not among the sources).
    The cell is looked up and the attempt is counted; a control-channel
    candidate is reserved in the slot being scheduled; for an uplink grant
    whose terminal owes an acknowledgement a PUCCH resource is reserved; the
    resource blocks are placed in the first candidate slot with space. The
    reservations are written together, on success only; the list of full
    slots keeps what the search learnt. *)
Definition allocate_grant (dir : direction) (req : ue_grant) (slice : ran_slice_id_t)
    (a : ue_cell_grid_allocator) : alloc_result * ue_cell_grid_allocator :=
  match cells a !! cell_index req with
  | None => (failed unknown_cell, a)
  | Some c =>
      let a0 := count_attempt dir a in
      let sl := slot_tx (cell_alloc c) in
      match pool_reserve sl (user req) (pdcch_sched c) with
      | None => (failed no_pdcch_candidate, a0)
      | Some pdcch' =>
          match (if match dir with
                    | UL => ack_required (expert_cfg a) (user req) sl
                    | DL => false
                    end
                 then pool_reserve (sl + ack_delay (expert_cfg a)) (user req) (uci_alloc c)
                 else Some (uci_alloc c)) with
          | None => (failed no_pucch_resource, a0)
          | Some uci' =>
              let r := search_slots dir (cell_alloc c) (nof_rbs req)
                         (candidate_slots (expert_cfg a) dir sl) (no_space_slots dir a) in
              let a1 := with_no_space_slots dir (sr_no_space r) a0 in
              match sr_found r with
              | None => (failed no_rb_capacity, a1)
              | Some pl =>
                  match place dir req slice pl (cell_alloc c) with
                  | None => (failed no_rb_capacity, a1)
                  | Some ca' =>
                      ({| status := success; alloc_nof_rbs := length (pl_rbs pl) |},
                       with_cell (cell_index req)
                         {| c_cell_index := c_cell_index c; pdcch_sched := pdcch';
                            uci_alloc := uci'; cell_alloc := ca' |} a1)
                  end
              end
          end
      end
  end.

(** The search over the candidate slots that an allocation runs, with the
    cell it runs on, if the allocation gets that far: the cell is known and
    the control-channel reservations are available. *)
Definition allocation_search (dir : direction) (req : ue_grant)
    (a : ue_cell_grid_allocator) : option (cell_t * search_result) :=
  match cells a !! cell_index req with
  | None => None
  | Some c =>
      let sl := slot_tx (cell_alloc c) in
      match pool_reserve sl (user req) (pdcch_sched c) with
      | None => None
      | Some _ =>
          match (if match dir with
                    | UL => ack_required (expert_cfg a) (user req) sl
                    | DL => false
                    end
                 then pool_reserve (sl + ack_delay (expert_cfg a)) (user req) (uci_alloc c)
                 else Some (uci_alloc c)) with
          | None => None
          | Some _ =>
              Some (c, search_slots dir (cell_alloc c) (nof_rbs req)
                         (candidate_slots (expert_cfg a) dir sl) (no_space_slots dir a))
          end
      end
  end.

(** [alloc_result allocate_dl_grant(const ue_pdsch_grant& grant, ran_slice_id_t slice_id)]. *)
Definition allocate_dl_grant (grant : ue_pdsch_grant) (slice : ran_slice_id_t)
  : ue_cell_grid_allocator -> alloc_result * ue_cell_grid_allocator :=
  allocate_grant DL grant slice.

(** [alloc_result allocate_ul_grant(const ue_pusch_grant& grant, ran_slice_id_t slice_id)]. *)
Definition allocate_ul_grant (grant : ue_pusch_grant) (slice : ran_slice_id_t)
  : ue_cell_grid_allocator -> alloc_result * ue_cell_grid_allocator :=
  allocate_grant UL grant slice.

(** The operations of the allocator as steps, and the states they reach from
    a freshly constructed allocator. A cell is added with a fresh window. *)
Inductive step : ue_cell_grid_allocator -> ue_cell_grid_allocator -> Prop :=
  | step_add_cell idx pdcch uci nrbs tdd n a :
      step a (add_cell idx pdcch uci (make_cell_resource_allocator nrbs tdd n) a)
  | step_slot_indication sl a :
      step a (slot_indication sl a)
  | step_allocate_dl_grant grant slice a :
      step a (snd (allocate_dl_grant grant slice a))
  | step_allocate_ul_grant grant slice a :
      step a (snd (allocate_ul_grant grant slice a)).

Inductive reachable (cfg : scheduler_ue_expert_config) : ue_cell_grid_allocator -> Prop :=
  | reachable_init : reachable cfg (make_ue_cell_grid_allocator cfg)
  | reachable_step a a' : reachable cfg a -> step a a' -> reachable cfg a'.

(** The grants placed for a cell, a slot and a direction: those of that
    direction in the grid the window of the cell holds for the slot. *)
Definition grants_of (a : ue_cell_grid_allocator) (idx : du_cell_index_t)
    (s : slot_point) (dir : direction) : list grant :=
  match cells a !! idx with
  | Some c =>
      match grid_at (cell_alloc c) s with
      | Some sg => filter (fun g => g_dir g = dir) (sg_grants sg)
      | None => []
      end
  | None => []
  end.

(** No two grants of a list meet in a position of the grid. *)
Definition pairwise_disjoint (gs : list grant) : Prop :=
  forall i j g1 g2, i <> j -> gs !! i = Some g1 -> gs !! j = Some g2 ->
  forall p, p ∈ grant_positions g1 -> p ∉ grant_positions g2.

(** *** The invariant of the grids *)

(** Two grants that share no position of the grid. *)
Definition disjoint_grants (g1 g2 : grant) : Prop :=
  forall p, p ∈ grant_positions g1 -> p ∉ grant_positions g2.

(** Every grant of the list is disjoint from the grants after it. *)
Fixpoint separated (gs : list grant) : Prop :=
  match gs with
  | [] => True
  | g :: rest => Forall (disjoint_grants g) rest /\ separated rest
  end.

(** The grants of a direction in a grid lie on taken positions of that
    direction and are separated. *)
Definition grid_wf (sg : slot_grid) : Prop :=
  forall dir,
    Forall (fun g => forall p, p ∈ grant_positions g -> is_Some (occupancy dir sg !! p))
           (filter (fun g => g_dir g = dir) (sg_grants sg))
    /\ separated (filter (fun g => g_dir g = dir) (sg_grants sg)).

(** The grants of a grid carry the cell and the slot of the grid. *)
Definition grid_tagged (idx : du_cell_index_t) (sg : slot_grid) : Prop :=
  Forall (fun g => g_cell g = idx /\ g_slot g = sg_slot sg) (sg_grants sg).

(** The invariant of the allocator: every grid of every cell is well formed
    and tagged. *)
Definition alloc_wf (a : ue_cell_grid_allocator) : Prop :=
  forall idx c, cells a !! idx = Some c ->
  Forall (fun sg => grid_wf sg /\ grid_tagged idx sg) (ring (cell_alloc c)).

(** *** A run of the allocator

    One FDD cell of two resource blocks with a window of four slots, and two
    candidate slots per downlink grant. *)
Definition run_cfg : scheduler_ue_expert_config :=
  {| MAX_NOF_DU_CELLS := 4; SCHEDULER_MAX_K0 := 2; SCHEDULER_MAX_K2 := 3;
     ack_delay := 4; ack_required := fun _ _ => true |}.

Definition run_pool : resource_pool := {| pool_size := 8; pool_allocs := [] |}.

Definition run_request (ue : du_ue_index_t) (n : nat) : ue_grant :=
  {| user := ue; cell_index := 0; nof_rbs := n |}.

Definition run_0 : ue_cell_grid_allocator :=
  slot_indication 0
    (add_cell 0 run_pool run_pool (make_cell_resource_allocator 2 None 4)
       (make_ue_cell_grid_allocator run_cfg)).

(** Two grants of one resource block each fill slot 0. *)
Definition run_1 : ue_cell_grid_allocator :=
  snd (allocate_dl_grant (run_request 7 1) 1 run_0).
Definition run_2 : ue_cell_grid_allocator :=
  snd (allocate_dl_grant (run_request 8 1) 1 run_1).
(** The third grant finds slot 0 full and goes to slot 1. *)
Definition run_3 : ue_cell_grid_allocator :=
  snd (allocate_dl_grant (run_request 9 2) 1 run_2).

End Sched.

(* ===================================================================== *)
(** ** ue_scheduling/ue_cell_grid_allocator.h: the allocator in use *)
(* ===================================================================== *)

Module SchedProtocol.
Import Sched.








End SchedProtocol.

(* ===================================================================== *)
(** ** The wire format of the packing *)
(* ===================================================================== *)

Module NeonFormat.
Import CInt Support Neon.
Local Open Scope Z_scope.

(** The number a byte sequence spells when its first byte is the most
    significant one. *)
Definition be_combine (bs : list Z) : Z := le_combine (rev bs).

(** The number a sequence of [w]-bit fields spells, first field first. *)
Definition be_fields (w : Z) (fields : list Z) : Z :=
  fold_left (fun acc f => acc * 2 ^ w + f) fields 0.

(** The three registers of a resource block out of its 24 samples. *)
Definition to_regs (samples : list Z) : list (list Z) :=
  [take 8 samples; take 8 (drop 8 samples); drop 16 samples].

(** A 16-bit sample as it goes on the wire: high byte, then low byte. *)
Definition be_bytes_16 (x : Z) : list Z := [(x / 256) mod 256; x mod 256].

End NeonFormat.

(* ===================================================================== *)
(** ** adt/bounded_integer.h: the comparison operators *)
(* ===================================================================== *)

Module BoundedIntegerCompare.
Import CInt BoundedInteger.
Local Open Scope Z_scope.

(** [bool operator==(const bounded_integer& other) const] and the five other
    comparisons: each compares the [value] members. *)
Definition operator_eq (this other : bounded_integer) : bool := value this =? value other.
Definition operator_ne (this other : bounded_integer) : bool :=
  negb (value this =? value other).
Definition operator_lt (this other : bounded_integer) : bool := value this <? value other.
Definition operator_le (this other : bounded_integer) : bool := value this <=? value other.
Definition operator_gt (this other : bounded_integer) : bool := value this >? value other.
Definition operator_ge (this other : bounded_integer) : bool := value this >=? value other.

End BoundedIntegerCompare.

(* ===================================================================== *)
(** ** ue_scheduling/ue_cell_grid_allocator.h: a decorator called repeatedly *)
(* ===================================================================== *)

Module SliceSequence.
Import Sched.

Section slice_sequence.
Context {Alloc Candidate : Type}.
Variable wrapped_allocate :
  direction -> ue_grant -> ran_slice_id_t -> Alloc -> alloc_result * Alloc.
Variable id : Candidate -> ran_slice_id_t.
Variable store_grant : nat -> Candidate -> Candidate.

(** The requests of a list made one after the other of the decorator of a
    direction, as a scheduling policy does with the terminals of a slice. *)
Fixpoint decorated_all (dir : direction) (grants : list ue_grant)
  : M (Alloc := Alloc) (Candidate := Candidate) (list alloc_result) :=
  match grants with
  | [] => ret []
  | grant :: rest =>
      bind (decorated wrapped_allocate id store_grant dir grant) (fun result =>
      bind (decorated_all dir rest) (fun results =>
      ret (result :: results)))
  end.

(** The same requests made of the wrapped allocator itself, all with the
    slice id [sid]. *)
Fixpoint wrapped_all (dir : direction) (sid : ran_slice_id_t) (grants : list ue_grant)
    (a : Alloc) : list alloc_result * Alloc :=
  match grants with
  | [] => ([], a)
  | grant :: rest =>
      let (result, a') := wrapped_allocate dir grant sid a in
      let (results, a'') := wrapped_all dir sid rest a' in
      (result :: results, a'')
  end.

(** The counts of resource blocks of the successful results, in order. *)
Definition granted_rbs (results : list alloc_result) : list nat :=
  map alloc_nof_rbs (filter (fun r => status r = success) results).

(** The calls a sequence of requests makes: each request reaches the wrapped
    allocator, and each success is followed by one [store_grant]. *)
Definition expected_calls (dir : direction) (sid : ran_slice_id_t)
    (grants : list ue_grant) (results : list alloc_result) : list call :=
  concat (zip_with (fun grant result =>
            call_allocate dir grant sid ::
            (if decide (status result = success)
             then [call_store_grant (alloc_nof_rbs result)] else []))
          grants results).

End slice_sequence.

End SliceSequence.

(* ===================================================================== *)
(** ** lib/cu_cp/cu_cp_controller/amf_connection_manager.cpp *)
(* ===================================================================== *)

Module AmfConnectionManager.

(** [amf_index_t]: the index of an AMF; [amf_index_t::invalid] is one of its
    values. *)
Definition amf_index_t : Type := nat.

Section amf_connection_manager.
Context {plmn_identity : Type} `{EqDecision plmn_identity}.
Variable invalid : amf_index_t.

(** The members the four synchronous functions read and write:
    [ngaps.get_ngaps()], the NGAP interfaces in the order the loop of
    [plmn_to_amf_index] visits them, each with the result of
    [get_ngap_context().get_supported_plmns()]; and
    [std::unordered_map<amf_index_t, std::atomic<bool>> amfs_connected]. *)
Record amf_connection_manager : Type := {
  ngaps : list (amf_index_t * list plmn_identity);
  amfs_connected : gmap amf_index_t bool
}.

(** [bool is_amf_connected(amf_index_t amf_index) const]. *)
Definition is_amf_connected_index (this : amf_connection_manager) (amf_index : amf_index_t)
  : bool :=
  match amfs_connected this !! amf_index with
  | None => false
  | Some connected => connected
  end.

(** [void handle_connection_setup_result(amf_index_t amf_index, bool success)]:
    [amfs_connected.emplace(amf_index, success)] inserts when the key is
    absent and does nothing when it is present. *)
Definition handle_connection_setup_result (this : amf_connection_manager)
    (amf_index : amf_index_t) (success : bool) : amf_connection_manager :=
  {| ngaps := ngaps this;
     amfs_connected :=
       match amfs_connected this !! amf_index with
       | None => <[amf_index := success]> (amfs_connected this)
       | Some _ => amfs_connected this
       end |}.

(** The inner loop of [plmn_to_amf_index]: is [plmn] among the supported ones. *)
Fixpoint supports (supported_plmns : list plmn_identity) (plmn : plmn_identity) : bool :=
  match supported_plmns with
  | [] => false
  | supported_plmn :: rest =>
      if decide (plmn = supported_plmn) then true else supports rest plmn
  end.

(** The outer loop of [plmn_to_amf_index]. *)
Fixpoint plmn_to_amf_index_from (l : list (amf_index_t * list plmn_identity))
    (plmn : plmn_identity) : amf_index_t :=
  match l with
  | [] => invalid
  | (amf_index, supported_plmns) :: rest =>
      if supports supported_plmns plmn then amf_index
      else plmn_to_amf_index_from rest plmn
  end.

(** [amf_index_t plmn_to_amf_index(plmn_identity plmn) const]. *)
Definition plmn_to_amf_index (this : amf_connection_manager) (plmn : plmn_identity)
  : amf_index_t :=
  plmn_to_amf_index_from (ngaps this) plmn.

(** [bool is_amf_connected(plmn_identity plmn) const]. *)
Definition is_amf_connected_plmn (this : amf_connection_manager) (plmn : plmn_identity)
  : bool :=
  let amf_index := plmn_to_amf_index this plmn in
  if decide (amf_index = invalid) then false
  else is_amf_connected_index this amf_index.

(** Results of connection setups handled one after the other. *)
Definition handle_connection_setup_results (this : amf_connection_manager)
    (results : list (amf_index_t * bool)) : amf_connection_manager :=
  fold_left (fun m r => handle_connection_setup_result m (fst r) (snd r)) results this.

(** The first result a list holds for an AMF. *)
Fixpoint first_result (results : list (amf_index_t * bool)) (amf_index : amf_index_t)
  : option bool :=
  match results with
  | [] => None
  | (i, success) :: rest =>
      if decide (i = amf_index) then Some success else first_result rest amf_index
  end.

End amf_connection_manager.

End AmfConnectionManager.

(* ===================================================================== *)
(** ** include/srsran/pdcp/pdcp_sn_util.h *)
(* ===================================================================== *)

Module PdcpSnUtil.
Import Support.
Local Open Scope Z_scope.

(** [enum class pdcp_sn_size]: the two sizes the function handles; any other
    value of the enumeration's type ends in the [default] case of the switch. *)
Inductive pdcp_sn_size : Type :=
  | size12bits
  | size18bits
  | size_other.

Global Instance pdcp_sn_size_eq_dec : EqDecision pdcp_sn_size.
Proof. solve_decision. Defined.

Section get_pdcp_sn.
(** Whether the build has assertions: [srsran_assertion_failure] aborts when
    it has and does nothing when it has not; in the function each one is
    followed by [return {}]. *)
Variable asserts_enabled : bool.

(** [bit_decoder] (support/bit_encoding.h): [bit_decoder decoder{pdcp_pdu}]
    and [decoder.unpack(val, n_bits)], which returns whether the bits could
    be read and stores them in [val]. *)
Context {bit_decoder : Type}.
Variable make_decoder : list Z -> bit_decoder.
Variable unpack : bit_decoder -> Z -> option Z * bit_decoder.

Definition assertion_failure : outcome (option Z) :=
  if asserts_enabled then AssertionFailure else Ok None.

(** The end of the function: [if (!read_ok) ...; if (reserved != 0) ...;
    return pdcp_sn;], [read_ok] being the conjunction of the two reads. *)
Definition check_header (reserved pdcp_sn : option Z) : outcome (option Z) :=
  match reserved, pdcp_sn with
  | Some reserved, Some pdcp_sn =>
      if negb (reserved =? 0) then assertion_failure else Ok (Some pdcp_sn)
  | _, _ => assertion_failure
  end.

(** [std::optional<uint32_t> get_pdcp_sn(pdcp_pdu, pdcp_sn_len, is_srb, logger)].
    The messages to the logger are left out. *)
Definition get_pdcp_sn (pdcp_pdu : list Z) (pdcp_sn_len : pdcp_sn_size) (is_srb : bool)
  : outcome (option Z) :=
  match pdcp_pdu with
  | [] => assertion_failure
  | _ :: _ =>
      if is_srb && negb (bool_decide (pdcp_sn_len = size12bits)) then assertion_failure
      else
        let decoder := make_decoder pdcp_pdu in
        let (dc_field, decoder) := unpack decoder 1 in
        match dc_field with
        | None => assertion_failure
        | Some dc_field =>
            if negb is_srb && (dc_field =? 0) then Ok None
            else if is_srb && (dc_field =? 1) then assertion_failure
            else
              match pdcp_sn_len with
              | size12bits =>
                  let (reserved, decoder) := unpack decoder 3 in
                  let (pdcp_sn, decoder) := unpack decoder 12 in
                  check_header reserved pdcp_sn
              | size18bits =>
                  let (reserved, decoder) := unpack decoder 5 in
                  let (pdcp_sn, decoder) := unpack decoder 18 in
                  check_header reserved pdcp_sn
              | size_other => assertion_failure
              end
        end
  end.

End get_pdcp_sn.

End PdcpSnUtil.

(* ********************************************************************* *)
(** * Theorems *)
(* ********************************************************************* *)

(* ===================================================================== *)
(** ** The bounded integer *)
(* ===================================================================== *)

Module BoundedIntegerProofs.
Import CInt Support BoundedInteger.
Local Open Scope Z_scope.

Lemma type_range (T : int_type) :
  type_max T - type_min T + 1 = 2 ^ bits T /\ type_min T <= 0 < type_max T.
Proof. destruct T; vm_compute; intuition congruence. Qed.

(** A value of the type is converted to itself. *)
Lemma convert_representable (T : int_type) (v : Z) :
  representable T v -> convert T v = v.
Proof.
  unfold representable, convert, type_min, type_max, wrap_s, wrap_u.
  destruct T; cbn [is_signed bits]; intros Hv;
    repeat match goal with
           | |- context [2 ^ ?e] => let x := eval vm_compute in (2 ^ e) in change (2 ^ e) with x
           | H : context [2 ^ ?e] |- _ =>
               let x := eval vm_compute in (2 ^ e) in change (2 ^ e) with x in H
           end;
    Z.div_mod_to_equations; lia.
Qed.

(** Whatever the value, its conversion is a value of the type. *)
Lemma convert_range (T : int_type) (v : Z) : representable T (convert T v).
Proof.
  unfold representable, convert, type_min, type_max, wrap_s, wrap_u.
  destruct T; cbn [is_signed bits];
    repeat match goal with
           | |- context [2 ^ ?e] => let x := eval vm_compute in (2 ^ e) in change (2 ^ e) with x
           end;
    Z.div_mod_to_equations; lia.
Qed.

Lemma in_bounds_iff (lo hi v : Z) : in_bounds lo hi v = true <-> lo <= v <= hi.
Proof. unfold in_bounds. rewrite andb_true_iff, !Z.leb_le. reflexivity. Qed.

(** C10 as stated, for every instance of the template and every argument,
    fails. With [MAX_VALUE] the largest value of [Integer] the sentinel wraps
    around: [bounded_integer<uint8_t, 0, 255>()] holds 0 and is
    valid. And an argument of a wider type is converted before it is checked:
    [bounded_integer<uint8_t, 0, 31>(256)] passes the assertion and holds 0. *)
Lemma bounded_integer_sentinel_wraps :
  (representable uint8_t 0 /\ representable uint8_t 255
   /\ value (default_ctor uint8_t 255) = 0
   /\ is_valid 0 255 (default_ctor uint8_t 255) = true)
  /\ (in_bounds 0 31 256 = false
      /\ ctor uint8_t 0 31 256 = Ok {| value := 0 |}).
Proof.
  split.
  - unfold representable. cbn. repeat split; try discriminate; reflexivity.
  - split; reflexivity.
Qed.

(** C10 (amended). For bounds that are values of [Integer]: if [MAX_VALUE] is
    below the largest value of [Integer], a default-constructed object holds
    [MAX_VALUE + 1] and [is_valid()] is false; constructing from or assigning a
    value within the bounds passes the assertion, stores the value and makes
    [is_valid()] true; constructing from or assigning a value of [Integer]
    outside the bounds fails the assertion. *)
Theorem bounded_integer_validity (Integer : int_type) (MIN_VALUE MAX_VALUE : Z) :
  representable Integer MIN_VALUE -> representable Integer MAX_VALUE ->
  (MAX_VALUE < type_max Integer ->
     value (default_ctor Integer MAX_VALUE) = MAX_VALUE + 1
     /\ is_valid MIN_VALUE MAX_VALUE (default_ctor Integer MAX_VALUE) = false)
  /\ (forall v, MIN_VALUE <= v <= MAX_VALUE ->
        ctor Integer MIN_VALUE MAX_VALUE v = Ok {| value := v |}
        /\ (forall this, assign Integer MIN_VALUE MAX_VALUE this v = Ok {| value := v |})
        /\ is_valid MIN_VALUE MAX_VALUE {| value := v |} = true)
  /\ (forall v, representable Integer v -> ~ (MIN_VALUE <= v <= MAX_VALUE) ->
        ctor Integer MIN_VALUE MAX_VALUE v = AssertionFailure
        /\ (forall this, assign Integer MIN_VALUE MAX_VALUE this v = AssertionFailure)).
Proof.
  intros Hmin Hmax. split; [|split].
  - intros Hlt.
    assert (Hsent : convert Integer (MAX_VALUE + 1) = MAX_VALUE + 1).
    { apply convert_representable. unfold representable in *. lia. }
    unfold default_ctor, is_valid. cbn [value]. rewrite Hsent.
    split; [reflexivity|].
    apply andb_false_iff. right. apply Z.leb_gt. lia.
  - intros v Hv.
    assert (Hconv : convert Integer v = v).
    { apply convert_representable. unfold representable in *. lia. }
    assert (Hin : in_bounds MIN_VALUE MAX_VALUE v = true) by (apply in_bounds_iff; exact Hv).
    unfold ctor, assign, assert_bounds. rewrite Hconv, Hin.
    split; [reflexivity|]. split; [reflexivity|]. exact Hin.
  - intros v Hrep Hout.
    assert (Hconv : convert Integer v = v) by (apply convert_representable; exact Hrep).
    assert (Hin : in_bounds MIN_VALUE MAX_VALUE v = false).
    { destruct (in_bounds MIN_VALUE MAX_VALUE v) eqn:E; [|reflexivity].
      apply in_bounds_iff in E. contradiction. }
    unfold ctor, assign, assert_bounds. rewrite Hconv, Hin.
    split; reflexivity.
Qed.

(** [sch_mcs_index = bounded_integer<uint8_t, 0, 31>]: the default object
    holds 32 and is invalid, index 28 is accepted, index 200 is refused. *)
Lemma bounded_integer_validity_witness :
  (value sch_mcs_index_default = 32 /\ sch_mcs_index_is_valid sch_mcs_index_default = false)
  /\ sch_mcs_index_ctor 28 = Ok {| value := 28 |}
  /\ sch_mcs_index_ctor 200 = AssertionFailure.
Proof.
  assert (H0 : representable uint8_t 0) by (unfold representable; cbn; lia).
  assert (H31 : representable uint8_t 31) by (unfold representable; cbn; lia).
  destruct (bounded_integer_validity uint8_t 0 31 H0 H31) as (Hdef & Hin & Hout).
  split; [|split].
  - apply Hdef. cbn. lia.
  - apply (Hin 28). lia.
  - apply (Hout 200); [unfold representable; cbn; lia | lia].
Defined.

(** What the default constructor yields when the sentinel does not fit:
    the smallest value of [Integer], valid exactly when it is [MIN_VALUE]. *)
Lemma default_ctor_at_type_max (Integer : int_type) (MIN_VALUE : Z) :
  representable Integer MIN_VALUE ->
  value (default_ctor Integer (type_max Integer)) = type_min Integer
  /\ (is_valid MIN_VALUE (type_max Integer) (default_ctor Integer (type_max Integer)) = true
      <-> MIN_VALUE = type_min Integer).
Proof.
  intros Hmin.
  assert (Hv : convert Integer (type_max Integer + 1) = type_min Integer)
    by (destruct Integer; vm_compute; reflexivity).
  unfold default_ctor, is_valid. cbn [value]. rewrite Hv. split; [reflexivity|].
  rewrite andb_true_iff, !Z.leb_le. unfold representable in Hmin.
  pose proof (type_range Integer). lia.
Qed.

(** Whatever the argument, an object the converting constructor or the
    assignment lets through holds the argument converted to [Integer], and
    that is within the bounds: [is_valid()] is true. *)
Theorem constructed_bounded_integer_is_valid
    (Integer : int_type) (MIN_VALUE MAX_VALUE v : Z) (this b : bounded_integer) :
  ctor Integer MIN_VALUE MAX_VALUE v = Ok b
  \/ assign Integer MIN_VALUE MAX_VALUE this v = Ok b ->
  value b = convert Integer v /\ is_valid MIN_VALUE MAX_VALUE b = true.
Proof.
  unfold ctor, assign, assert_bounds.
  destruct (in_bounds MIN_VALUE MAX_VALUE (convert Integer v)) eqn:Hin.
  - intros [[= <-]|[= <-]]; split; try reflexivity; exact Hin.
  - intros [H|H]; discriminate H.
Qed.

Lemma constructed_bounded_integer_is_valid_witness :
  value {| value := 28 |} = convert uint8_t 28
  /\ sch_mcs_index_is_valid {| value := 28 |} = true.
Proof.
  apply (constructed_bounded_integer_is_valid uint8_t 0 31 28 {| value := 0 |}).
  left. reflexivity.
Defined.

End BoundedIntegerProofs.

(* ===================================================================== *)
(** ** Round trip of the 9-bit packing *)
(* ===================================================================== *)

Module NeonProofs.
Import CInt Support Neon.
Local Open Scope Z_scope.

Lemma forall_range_spec (n : nat) :
  forall lo p, forall_range n lo p = true ->
  forall x, lo <= x < lo + Z.of_nat n -> p x = true.
Proof.
  induction n as [|n IH]; intros lo p Hall x Hx.
  - lia.
  - cbn [forall_range] in Hall. apply andb_prop in Hall as [Hlo Hrest].
    destruct (Z.eq_dec x lo) as [->|Hne]; [exact Hlo|].
    apply (IH (lo + 1) p Hrest). lia.
Qed.

(** *** One lane *)

Lemma lane_bytes_checked (k : Z) : 0 <= k < 8 -> lane_bytes_check k = true.
Proof.
  intros Hk. apply (forall_range_spec 8 0 lane_bytes_check); [|lia].
  vm_compute. reflexivity.
Qed.

Lemma lane_bytes (k x : Z) :
  0 <= k < 8 -> nine_bit x ->
  0 <= lo8 (pack_lane k x) /\ 0 <= hi8 (pack_lane k x)
  /\ lo8 (pack_lane k x) + 256 * hi8 (pack_lane k x) = (x mod 512) * 2 ^ (7 - k)
  /\ lo8 (pack_lane k x) = (x mod 2 ^ (k + 1)) * 2 ^ (7 - k).
Proof.
  intros Hk Hx.
  pose proof (forall_range_spec _ _ _ (lane_bytes_checked k Hk) x) as H.
  cbv beta zeta in H. unfold nine_bit in Hx.
  assert (Hr : -256 <= x < -256 + Z.of_nat 512) by lia.
  specialize (H Hr).
  repeat (apply andb_prop in H as [H ?]).
  lia.
Qed.

(** Bytes whose bits do not meet are joined by [Z.lor] as by a sum. *)
Lemma lor_disjoint (a h n : Z) :
  0 <= n -> a mod 2 ^ n = 0 -> 0 <= h < 2 ^ n -> Z.lor a h = a + h.
Proof.
  intros Hn Ha Hh.
  assert (Hland : Z.land a h = 0).
  { apply Z.bits_inj'. intros i Hi. rewrite Z.land_spec, Z.bits_0.
    destruct (Z.lt_ge_cases i n) as [Hlt|Hge].
    - assert (Z.testbit a i = false) as ->; [|reflexivity].
      rewrite <- (Z.mod_pow2_bits_low a n i) by lia. rewrite Ha. apply Z.bits_0.
    - assert (Z.testbit h i = false) as ->; [|apply andb_false_r].
      rewrite <- (Z.mod_small h (2 ^ n)) by lia.
      apply Z.mod_pow2_bits_high. lia. }
  rewrite Z.add_nocarry_lxor by exact Hland.
  symmetry. apply Z.lxor_lor. exact Hland.
Qed.

(** Powers of two with a closed exponent, evaluated in the goal and the
    hypotheses. *)
Ltac eval_pow2 :=
  repeat match goal with
  | |- context [2 ^ ?e] =>
      let v := eval vm_compute in (2 ^ e) in change (2 ^ e) with v
  | H : context [2 ^ ?e] |- _ =>
      let v := eval vm_compute in (2 ^ e) in change (2 ^ e) with v in H
  end.

Lemma small_cases (k : Z) :
  0 <= k < 8 -> k = 0 \/ k = 1 \/ k = 2 \/ k = 3 \/ k = 4 \/ k = 5 \/ k = 6 \/ k = 7.
Proof. lia. Qed.

(** The sum of the two bytes, shifted back by [k], truncated to sixteen bits
    and shifted arithmetically by seven, is the sample: the bits [a] of the
    sample before fall out on the left, the bits [d] of the sample after on
    the right. *)
Lemma unpack_lane_sum (k a lo hi d x : Z) :
  0 <= k < 8 -> nine_bit x ->
  0 <= a < 256 -> a mod 2 ^ (8 - k) = 0 ->
  0 <= d < 2 ^ (7 - k) ->
  lo + 256 * hi = (x mod 512) * 2 ^ (7 - k) ->
  unpack_lane k (a + hi) (lo + d) = x.
Proof.
  intros Hk Hx Ha Hmod Hd Hbytes. unfold nine_bit in Hx.
  unfold unpack_lane, wrap_s, wrap_u.
  rewrite Z.shiftr_div_pow2, Z.shiftl_mul_pow2 by
    (destruct (small_cases k Hk) as [->|[->|[->|[->|[->|[->|[->| ->]]]]]]];
     vm_compute; discriminate).
  destruct (small_cases k Hk) as [->|[->|[->|[->|[->|[->|[->| ->]]]]]]];
    eval_pow2; Z.div_mod_to_equations; lia.
Qed.

Lemma lane_roundtrip (k a x d : Z) :
  0 <= k < 8 -> nine_bit x ->
  0 <= a < 256 -> a mod 2 ^ (8 - k) = 0 ->
  0 <= d < 2 ^ (7 - k) ->
  unpack_lane k (Z.lor a (hi8 (pack_lane k x))) (Z.lor (lo8 (pack_lane k x)) d) = x.
Proof.
  intros Hk Hx Ha Hmod Hd.
  destruct (lane_bytes k x Hk Hx) as (Hlo & Hhi & Hsum & Hlow).
  assert (Hp7 : 0 < 2 ^ (7 - k)) by (apply Z.pow_pos_nonneg; lia).
  assert (Hp8 : 2 ^ (8 - k) = 2 * 2 ^ (7 - k)).
  { replace (8 - k) with (Z.succ (7 - k)) by lia. apply Z.pow_succ_r. lia. }
  assert (Hhi_lt : hi8 (pack_lane k x) < 2 ^ (8 - k)).
  { unfold nine_bit in Hx.
    assert (0 <= x mod 512 < 512) by (apply Z.mod_pos_bound; lia).
    assert (Hpk : 2 ^ (8 - k) * 2 ^ k = 256).
    { rewrite <- Z.pow_add_r by lia. replace (8 - k + k) with 8 by lia. reflexivity. }
    assert (0 < 2 ^ k) by (apply Z.pow_pos_nonneg; lia).
    nia. }
  rewrite (lor_disjoint a _ (8 - k)) by lia.
  rewrite (lor_disjoint _ d (7 - k)); [| lia | | lia].
  - apply unpack_lane_sum; assumption.
  - rewrite Hlow. apply Z.mod_mul. lia.
Qed.

(** The byte before lane [k] ends above the bits lane [k] writes, the byte
    after it starts below them. *)
Lemma prev_byte_ok (k x : Z) :
  1 <= k < 8 -> nine_bit x ->
  0 <= lo8 (pack_lane (k - 1) x) < 256 /\ lo8 (pack_lane (k - 1) x) mod 2 ^ (8 - k) = 0.
Proof.
  intros Hk Hx.
  destruct (lane_bytes (k - 1) x ltac:(lia) Hx) as (_ & _ & _ & ->).
  replace (k - 1 + 1) with k by lia. replace (7 - (k - 1)) with (8 - k) by lia.
  assert (Hp : 0 < 2 ^ (8 - k)) by (apply Z.pow_pos_nonneg; lia).
  assert (Hm : 0 <= x mod 2 ^ k < 2 ^ k) by (apply Z.mod_pos_bound, Z.pow_pos_nonneg; lia).
  assert (Hpk : 2 ^ k * 2 ^ (8 - k) = 256).
  { rewrite <- Z.pow_add_r by lia. replace (k + (8 - k)) with 8 by lia. reflexivity. }
  split; [nia | apply Z.mod_mul; lia].
Qed.

Lemma next_byte_ok (k x : Z) :
  0 <= k < 7 -> nine_bit x ->
  0 <= hi8 (pack_lane (k + 1) x) < 2 ^ (7 - k).
Proof.
  intros Hk Hx.
  destruct (lane_bytes (k + 1) x ltac:(lia) Hx) as (Hlo & Hhi & Hsum & _).
  replace (7 - (k + 1)) with (6 - k) in Hsum by lia.
  assert (Hp : 0 < 2 ^ (6 - k)) by (apply Z.pow_pos_nonneg; lia).
  assert (Hp7 : 2 ^ (7 - k) = 2 * 2 ^ (6 - k)).
  { replace (7 - k) with (Z.succ (6 - k)) by lia. apply Z.pow_succ_r. lia. }
  assert (Hm : 0 <= x mod 512 < 512) by (apply Z.mod_pos_bound; lia).
  assert (Hpk : 2 ^ (6 - k) <= 64).
  { change 64 with (2 ^ 6). apply Z.pow_le_mono_r; lia. }
  nia.
Qed.

(** *** One register *)

Lemma shift_mask_pack :
  vcombine_s16 (vcreate_s16 0x0004000500060007) (vcreate_s16 0x0000000100020003)
  = [7; 6; 5; 4; 3; 2; 1; 0].
Proof. vm_compute. reflexivity. Qed.

Lemma and_mask_pack :
  vcombine_s16 (vcreate_s16 0x1ff03fe07fc0ff80) (vcreate_s16 0x01ff03fe07fc0ff8)
  = [-128; 0x7fc0; 0x3fe0; 0x1ff0; 0x0ff8; 0x07fc; 0x03fe; 0x01ff].
Proof. vm_compute. reflexivity. Qed.

Lemma tbl_idx_pack_0 :
  vcombine_u8 (vcreate_u8 0x0c0a0806040200ff) (vcreate_u8 0xffffffffffffff0e)
  = [255; 0; 2; 4; 6; 8; 10; 12; 14; 255; 255; 255; 255; 255; 255; 255].
Proof. vm_compute. reflexivity. Qed.

Lemma tbl_idx_pack_1 :
  vcombine_u8 (vcreate_u8 0x0f0d0b0907050301) (vcreate_u8 0xffffffffffffffff)
  = [1; 3; 5; 7; 9; 11; 13; 15; 255; 255; 255; 255; 255; 255; 255; 255].
Proof. vm_compute. reflexivity. Qed.

(** Unfolding of the list plumbing of the intrinsics on vectors whose lanes
    are written out; the arithmetic on the lanes is left as it stands. *)
Ltac unfold_vectors :=
  cbv [vshlq_s16 vshlq_u16 vshrq_n_s16 vandq_s16 vorrq_u8 zip_with
       vreinterpretq_s8_s16 vreinterpretq_u8_s8 vreinterpretq_u16_u8
       vreinterpretq_s16_u16 vreinterpretq_s16_u8 flat_map app
       vqtbl1q_s8 vqtbl1q_u8 vqtbl2q_u8 tbl map length nth
       vget_low_u8 vreinterpret_u64_u8 vdupq_n_u8 vextq_u8 replicate
       vld1q_u8 vld1q_u8_x3 take drop val
       vst1_u64 vst1q_lane_u8 vst1q_s8 vst1q_s16 list_inserts insert list_insert
       unpack_reg seq
       BYTES_PER_PRB_9BIT_COMPRESSION bytes_per_half_reg
       BYTES_PER_PRB_16BIT_COMPRESSION NEON_REG_SIZE_BYTES
       Z.ltb Z.compare Pos.compare Pos.compare_cont Z.of_nat Pos.of_succ_nat
       Pos.succ Z.to_nat Pos.to_nat Pos.iter_op Nat.add Nat.mul Nat.eqb negb].

(** The sixteen bytes of the packed register: the high byte of lane [k] joins
    the low byte of lane [k - 1]. *)
Lemma pack_neon_register_9b_bytes (x0 x1 x2 x3 x4 x5 x6 x7 : Z) :
  pack_neon_register_9b_big_endian [x0; x1; x2; x3; x4; x5; x6; x7]
  = [ Z.lor 0 (hi8 (pack_lane 0 x0));
      Z.lor (lo8 (pack_lane 0 x0)) (hi8 (pack_lane 1 x1));
      Z.lor (lo8 (pack_lane 1 x1)) (hi8 (pack_lane 2 x2));
      Z.lor (lo8 (pack_lane 2 x2)) (hi8 (pack_lane 3 x3));
      Z.lor (lo8 (pack_lane 3 x3)) (hi8 (pack_lane 4 x4));
      Z.lor (lo8 (pack_lane 4 x4)) (hi8 (pack_lane 5 x5));
      Z.lor (lo8 (pack_lane 5 x5)) (hi8 (pack_lane 6 x6));
      Z.lor (lo8 (pack_lane 6 x6)) (hi8 (pack_lane 7 x7));
      Z.lor (lo8 (pack_lane 7 x7)) 0;
      0; 0; 0; 0; 0; 0; 0 ].
Proof.
  unfold pack_neon_register_9b_big_endian.
  rewrite shift_mask_pack, and_mask_pack, tbl_idx_pack_0, tbl_idx_pack_1.
  unfold_vectors. reflexivity.
Qed.

Lemma wrap_u_byte (x : Z) : is_byte (wrap_u 8 x).
Proof. unfold is_byte, wrap_u. apply Z.mod_pos_bound. reflexivity. Qed.

Lemma lor_byte (a b : Z) : is_byte a -> is_byte b -> is_byte (Z.lor a b).
Proof.
  unfold is_byte. intros Ha Hb.
  assert (Hnn : 0 <= Z.lor a b) by (apply Z.lor_nonneg; lia).
  split; [exact Hnn|].
  assert (Heq : Z.lor a b mod 2 ^ 8 = Z.lor a b).
  { apply Z.bits_inj'. intros i Hi.
    destruct (Z.lt_ge_cases i 8) as [Hlt|Hge].
    - apply Z.mod_pow2_bits_low. lia.
    - rewrite Z.mod_pow2_bits_high by lia. rewrite Z.lor_spec.
      rewrite <- (Z.mod_small a (2 ^ 8)), <- (Z.mod_small b (2 ^ 8)) by (change (2 ^ 8) with 256; lia).
      rewrite !Z.mod_pow2_bits_high by lia. reflexivity. }
  rewrite <- Heq. apply Z.mod_pos_bound. reflexivity.
Qed.

Lemma zero_byte : is_byte 0.
Proof. unfold is_byte. lia. Qed.

Lemma lo8_byte (v : Z) : is_byte (lo8 v).
Proof. apply wrap_u_byte. Qed.

Lemma hi8_byte (v : Z) : is_byte (hi8 v).
Proof. apply wrap_u_byte. Qed.

Create HintDb bytes.
#[local] Hint Resolve wrap_u_byte lor_byte zero_byte lo8_byte hi8_byte : bytes.

(** A register of nine-bit samples is read back from its nine bytes. *)
Lemma register_roundtrip (x0 x1 x2 x3 x4 x5 x6 x7 : Z) :
  nine_bit x0 -> nine_bit x1 -> nine_bit x2 -> nine_bit x3 ->
  nine_bit x4 -> nine_bit x5 -> nine_bit x6 -> nine_bit x7 ->
  unpack_reg (take 9 (pack_neon_register_9b_big_endian [x0; x1; x2; x3; x4; x5; x6; x7]))
  = [x0; x1; x2; x3; x4; x5; x6; x7].
Proof.
  intros H0 H1 H2 H3 H4 H5 H6 H7.
  rewrite pack_neon_register_9b_bytes. unfold_vectors.
  assert (Hz : 0 <= 0 < 256 /\ 0 mod 2 ^ (8 - 0) = 0) by (split; [lia | reflexivity]).
  assert (Hz' : 0 <= 0 < 2 ^ (7 - 7)) by (split; [lia | reflexivity]).
  rewrite (lane_roundtrip 0 0 x0 _) by
    first [lia | assumption | apply Hz | apply (next_byte_ok 0); [lia | assumption]].
  rewrite (lane_roundtrip 1 _ x1 _) by
    first [lia | assumption | apply (prev_byte_ok 1); [lia | assumption]
          | apply (next_byte_ok 1); [lia | assumption]].
  rewrite (lane_roundtrip 2 _ x2 _) by
    first [lia | assumption | apply (prev_byte_ok 2); [lia | assumption]
          | apply (next_byte_ok 2); [lia | assumption]].
  rewrite (lane_roundtrip 3 _ x3 _) by
    first [lia | assumption | apply (prev_byte_ok 3); [lia | assumption]
          | apply (next_byte_ok 3); [lia | assumption]].
  rewrite (lane_roundtrip 4 _ x4 _) by
    first [lia | assumption | apply (prev_byte_ok 4); [lia | assumption]
          | apply (next_byte_ok 4); [lia | assumption]].
  rewrite (lane_roundtrip 5 _ x5 _) by
    first [lia | assumption | apply (prev_byte_ok 5); [lia | assumption]
          | apply (next_byte_ok 5); [lia | assumption]].
  rewrite (lane_roundtrip 6 _ x6 _) by
    first [lia | assumption | apply (prev_byte_ok 6); [lia | assumption]
          | apply (next_byte_ok 6); [lia | assumption]].
  rewrite (lane_roundtrip 7 _ x7 0) by
    first [lia | assumption | apply Hz' | apply (prev_byte_ok 7); [lia | assumption]].
  reflexivity.
Qed.

(** *** The buffer *)

Lemma le_split_combine (bs : list Z) :
  Forall is_byte bs -> le_split (length bs) (le_combine bs) = bs.
Proof.
  induction 1 as [|b bs Hb _ IH]; [reflexivity|].
  cbn [length le_split le_combine]. unfold is_byte in Hb.
  set (c := le_combine bs) in *.
  assert (Hm : (b + 256 * c) mod 256 = b) by (Z.div_mod_to_equations; lia).
  assert (Hd : (b + 256 * c) / 256 = c) by (Z.div_mod_to_equations; lia).
  rewrite Hm, Hd, IH. reflexivity.
Qed.

(** Whatever the register, its packing is sixteen bytes. *)
Lemma pack_neon_register_9b_shape (reg : list Z) :
  exists bs, pack_neon_register_9b_big_endian reg = bs
             /\ length bs = 16%nat /\ Forall is_byte bs.
Proof.
  eexists. split; [reflexivity|].
  unfold pack_neon_register_9b_big_endian.
  rewrite tbl_idx_pack_0, tbl_idx_pack_1.
  cbv [vorrq_u8 zip_with vreinterpretq_u8_s8 vqtbl1q_s8 tbl map].
  split; [reflexivity|].
  repeat first [apply List.Forall_nil | apply List.Forall_cons; [auto with bytes|]].
Qed.

Ltac explicit_list l H :=
  repeat (destruct l as [|? l]; [discriminate H|]);
  destruct l; [|discriminate H].

(** The buffer after packing: the first nine bytes of each packed register. *)
Lemma pack_prb_9b_buffer (buf : list Z) (regs : list (list Z)) :
  length buf = 27%nat ->
  pack_prb_9b_big_endian buf regs
  = Ok (take 9 (pack_neon_register_9b_big_endian (val regs 0))
        ++ take 9 (pack_neon_register_9b_big_endian (val regs 1))
        ++ take 9 (pack_neon_register_9b_big_endian (val regs 2))).
Proof.
  intros Hbuf. unfold pack_prb_9b_big_endian.
  destruct (pack_neon_register_9b_shape (val regs 0)) as (v0 & -> & Hl0 & Hb0).
  destruct (pack_neon_register_9b_shape (val regs 1)) as (v1 & -> & Hl1 & Hb1).
  destruct (pack_neon_register_9b_shape (val regs 2)) as (v2 & -> & Hl2 & Hb2).
  explicit_list v0 Hl0. explicit_list v1 Hl1. explicit_list v2 Hl2.
  explicit_list buf Hbuf.
  cbv [vst1_u64 vreinterpret_u64_u8 vget_low_u8 take nth].
  rewrite !(le_split_combine [_; _; _; _; _; _; _; _]) by
    (repeat match goal with H : Forall _ (_ :: _) |- _ => inversion_clear H end;
     repeat first [apply List.Forall_nil | apply List.Forall_cons; [assumption|]]).
  unfold_vectors. reflexivity.
Qed.

Lemma tbl_idx_unpack_0 :
  vcombine_u8 (vcreate_u8 0x0304020301020001) (vcreate_u8 0x0708060705060405)
  = [1; 0; 2; 1; 3; 2; 4; 3; 5; 4; 6; 5; 7; 6; 8; 7].
Proof. vm_compute. reflexivity. Qed.

Lemma tbl_idx_unpack_1 :
  vcombine_u8 (vcreate_u8 0x0c0d0b0c0a0b090a) (vcreate_u8 0x10110f100e0f0d0e)
  = [10; 9; 11; 10; 12; 11; 13; 12; 14; 13; 15; 14; 16; 15; 17; 16].
Proof. vm_compute. reflexivity. Qed.

Lemma tbl_idx_unpack_2 :
  vcombine_u8 (vcreate_u8 0x1516141513141213) (vcreate_u8 0x191a181917181617)
  = [19; 18; 20; 19; 21; 20; 22; 21; 23; 22; 24; 23; 25; 24; 26; 25].
Proof. vm_compute. reflexivity. Qed.

Lemma shift_mask_unpack :
  vcombine_s16 (vcreate_s16 0x0003000200010000) (vcreate_s16 0x0007000600050004)
  = [0; 1; 2; 3; 4; 5; 6; 7].
Proof. vm_compute. reflexivity. Qed.

(** Unpacking reads each group of nine bytes on its own. *)
Lemma unpack_prb_9b_groups (out q0 q1 q2 : list Z) :
  length out = 24%nat ->
  length q0 = 9%nat -> length q1 = 9%nat -> length q2 = 9%nat ->
  unpack_prb_9b_big_endian out (q0 ++ q1 ++ q2)
  = unpack_reg q0 ++ unpack_reg q1 ++ unpack_reg q2.
Proof.
  intros Hout H0 H1 H2.
  explicit_list q0 H0. explicit_list q1 H1. explicit_list q2 H2.
  explicit_list out Hout.
  unfold unpack_prb_9b_big_endian.
  rewrite tbl_idx_unpack_0, tbl_idx_unpack_1, tbl_idx_unpack_2, shift_mask_unpack.
  unfold_vectors. reflexivity.
Qed.

Lemma register_roundtrip_list (r : list Z) :
  length r = 8%nat -> Forall nine_bit r ->
  unpack_reg (take 9 (pack_neon_register_9b_big_endian r)) = r.
Proof.
  intros Hlen Hr. explicit_list r Hlen.
  repeat match goal with H : Forall _ (_ :: _) |- _ => inversion_clear H end.
  apply register_roundtrip; assumption.
Qed.

Lemma take9_packed_length (reg : list Z) :
  length (take 9 (pack_neon_register_9b_big_endian reg)) = 9%nat.
Proof.
  destruct (pack_neon_register_9b_shape reg) as (v & -> & Hl & _).
  rewrite length_take. lia.
Qed.

(** C9. Packing 24 samples that fit in nine bits with [pack_prb_9b_big_endian]
    fills the 27 bytes of the buffer, and [unpack_prb_9b_big_endian] reads the
    same 24 samples back from them. *)
Theorem pack_unpack_prb_9b_roundtrip (r0 r1 r2 buf out : list Z) :
  length r0 = 8%nat -> length r1 = 8%nat -> length r2 = 8%nat ->
  Forall nine_bit (r0 ++ r1 ++ r2) ->
  length buf = 27%nat -> length out = 24%nat ->
  exists packed,
    pack_prb_9b_big_endian buf [r0; r1; r2] = Ok packed
    /\ length packed = 27%nat
    /\ unpack_prb_9b_big_endian out packed = r0 ++ r1 ++ r2.
Proof.
  intros H0 H1 H2 Hnine Hbuf Hout.
  apply Forall_app in Hnine as [Hn0 Hnine]. apply Forall_app in Hnine as [Hn1 Hn2].
  eexists. split; [apply pack_prb_9b_buffer; exact Hbuf|].
  change (val [r0; r1; r2] 0) with r0. change (val [r0; r1; r2] 1) with r1.
  change (val [r0; r1; r2] 2) with r2.
  split.
  - rewrite !length_app, !take9_packed_length. reflexivity.
  - rewrite unpack_prb_9b_groups by (first [exact Hout | apply take9_packed_length]).
    rewrite !register_roundtrip_list by assumption. reflexivity.
Qed.

(** The round trip on the samples of a concrete resource block. *)
Lemma pack_unpack_prb_9b_roundtrip_witness :
  exists packed,
    pack_prb_9b_big_endian (replicate 27 0)
      [[1; -1; 255; -256; 0; 5; -7; 100]; [-256; -255; -128; -1; 0; 1; 127; 128];
       [255; 254; 3; -3; 17; -200; 200; 42]] = Ok packed
    /\ length packed = 27%nat
    /\ unpack_prb_9b_big_endian (replicate 24 0) packed
       = [1; -1; 255; -256; 0; 5; -7; 100] ++ [-256; -255; -128; -1; 0; 1; 127; 128]
         ++ [255; 254; 3; -3; 17; -200; 200; 42].
Proof.
  apply pack_unpack_prb_9b_roundtrip; try reflexivity.
  repeat first [apply List.Forall_nil | apply List.Forall_cons; [unfold nine_bit; lia|]].
Defined.

(** *** The 16-bit packing and the dispatch on the width *)

Lemma shuffle_mask_16b :
  vcombine_u8 (vcreate_u8 0x0607040502030001) (vcreate_u8 0x0e0f0c0d0a0b0809)
  = [1; 0; 3; 2; 5; 4; 7; 6; 9; 8; 11; 10; 13; 12; 15; 14].
Proof. vm_compute. reflexivity. Qed.

(** The two bytes of a 16-bit lane, swapped on the way out and on the way
    back, make up the lane again. *)
Lemma lane_16b_roundtrip (x : Z) :
  int16 x ->
  wrap_s 16 (wrap_u 8 (wrap_s 8 x) + 256 * wrap_u 8 (wrap_s 8 (Z.shiftr x 8))) = x.
Proof.
  unfold int16, wrap_s, wrap_u. intros Hx.
  rewrite Z.shiftr_div_pow2 by lia.
  eval_pow2. Z.div_mod_to_equations. lia.
Qed.

(** Packing 24 samples of sixteen bits with [pack_prb_16b_big_endian] fills
    the 48 bytes of the buffer, and [unpack_prb_16b_big_endian] reads the same
    samples back. *)
Theorem pack_unpack_prb_16b_roundtrip (r0 r1 r2 buf out : list Z) :
  length r0 = 8%nat -> length r1 = 8%nat -> length r2 = 8%nat ->
  Forall int16 (r0 ++ r1 ++ r2) ->
  length buf = 48%nat -> length out = 24%nat ->
  exists packed,
    pack_prb_16b_big_endian buf [r0; r1; r2] = Ok packed
    /\ length packed = 48%nat
    /\ unpack_prb_16b_big_endian out packed = r0 ++ r1 ++ r2.
Proof.
  intros H0 H1 H2 Hall Hbuf Hout.
  explicit_list r0 H0. explicit_list r1 H1. explicit_list r2 H2.
  explicit_list buf Hbuf. explicit_list out Hout.
  cbn [app] in Hall.
  repeat match goal with H : Forall _ (_ :: _) |- _ => inversion_clear H end.
  eexists. split; [|split].
  - unfold pack_prb_16b_big_endian. rewrite shuffle_mask_16b. unfold_vectors. reflexivity.
  - reflexivity.
  - unfold unpack_prb_16b_big_endian. rewrite shuffle_mask_16b. unfold_vectors.
    rewrite !lane_16b_roundtrip by assumption. reflexivity.
Qed.

Lemma pack_unpack_prb_16b_roundtrip_witness :
  exists packed,
    pack_prb_16b_big_endian (replicate 48 0)
      [[1; -1; 255; -256; 0; 5; -7; 100]; [-32768; 32767; -128; -1; 0; 1; 127; 128];
       [4660; -4660; 3; -3; 17; -200; 200; 42]] = Ok packed
    /\ length packed = 48%nat
    /\ unpack_prb_16b_big_endian (replicate 24 0) packed
       = [1; -1; 255; -256; 0; 5; -7; 100] ++ [-32768; 32767; -128; -1; 0; 1; 127; 128]
         ++ [4660; -4660; 3; -3; 17; -200; 200; 42].
Proof.
  apply pack_unpack_prb_16b_roundtrip; try reflexivity.
  repeat first [apply List.Forall_nil | apply List.Forall_cons; [unfold int16; lia|]].
Defined.

(** [pack_prb_big_endian] and [unpack_prb_big_endian] report a fatal error
    exactly for the widths [iq_width_packing_supported] refuses. *)
Theorem unsupported_width_is_fatal (buf out : list Z) (regs : list (list Z)) (iq_width : Z) :
  (pack_prb_big_endian buf regs iq_width = FatalError
   <-> iq_width_packing_supported iq_width = false)
  /\ (unpack_prb_big_endian out buf iq_width = FatalError
      <-> iq_width_packing_supported iq_width = false).
Proof.
  unfold pack_prb_big_endian, unpack_prb_big_endian, iq_width_packing_supported,
    pack_prb_9b_big_endian, pack_prb_16b_big_endian.
  destruct (iq_width =? 9), (iq_width =? 16); cbn [orb];
    repeat match goal with |- context [if ?b then _ else _] => destruct b end;
    split; split; intros H; first [discriminate H | reflexivity].
Qed.

End NeonProofs.

(* ===================================================================== *)
(** ** The TDD pattern evaluator: the patterns of the test *)
(* ===================================================================== *)

Module TddProofs.
Import Tdd.

(** The configuration with two patterns that scheduler_tdd_test.cpp writes
    down: ten slots, the first six by the first pattern, the last four by the
    second. *)
Example two_patterns_test_params :
  nof_slots_per_tdd_period test_params_6_3_4_2_4_then_4_4_0_0_0 = 10
  /\ map (classify test_params_6_3_4_2_4_then_4_4_0_0_0) (seq 0 10)
     = [fully_dl; fully_dl; fully_dl; special 4 4; fully_ul; fully_ul;
        fully_dl; fully_dl; fully_dl; fully_dl]
  /\ classify test_params_6_3_4_2_4_then_4_4_0_0_0 1013 = special 4 4.
Proof. repeat split. Qed.

(** The pattern the suite runs: slots 0 to 5 of every ten are fully downlink,
    slot 6 is special, slots 7 to 9 are fully uplink. *)
Example one_pattern_test_params :
  map (classify test_params_10_6_4_3_4) (seq 0 10)
  = [fully_dl; fully_dl; fully_dl; fully_dl; fully_dl; fully_dl;
     special 4 4; fully_ul; fully_ul; fully_ul].
Proof. reflexivity. Qed.

End TddProofs.

(* ===================================================================== *)
(** ** The slice decorators *)
(* ===================================================================== *)

Module SliceProofs.
Import Sched.

Section decorator.
Context {Alloc Candidate : Type}.
Variable wrapped_allocate :
  direction -> ue_grant -> ran_slice_id_t -> Alloc -> alloc_result * Alloc.
Variable id : Candidate -> ran_slice_id_t.
Variable store_grant : nat -> Candidate -> Candidate.

Lemma decorated_unfold (dir : direction) (grant : ue_grant)
    (w : @world Alloc Candidate) :
  decorated wrapped_allocate id store_grant dir grant w
  = let out := wrapped_allocate dir grant (id (w_candidate w)) (w_alloc w) in
    let calls := w_calls w ++ [call_allocate dir grant (id (w_candidate w))] in
    if decide (status (fst out) = success)
    then (fst out,
          {| w_alloc := snd out;
             w_candidate := store_grant (alloc_nof_rbs (fst out)) (w_candidate w);
             w_calls := calls ++ [call_store_grant (alloc_nof_rbs (fst out))] |})
    else (fst out,
          {| w_alloc := snd out; w_candidate := w_candidate w; w_calls := calls |}).
Proof.
  destruct dir; cbv [decorated dl_slice_allocate_dl_grant ul_slice_allocate_ul_grant
                     bind slice_candidate_id alloc_allocate];
    cbn [w_candidate w_alloc w_calls];
    destruct (wrapped_allocate _ grant (id (w_candidate w)) (w_alloc w)) as [r a'];
    cbn [fst snd]; destruct (decide (status r = success)); reflexivity.
Qed.

End decorator.

(** C2. Both decorators return what the wrapped allocator returned for the
    request and the id of the slice candidate, and leave the allocator as the
    wrapped call left it; on success they call [store_grant] once, with the
    count of resource blocks granted, after the wrapped call; on failure the
    wrapped call is the only call and the slice candidate is untouched; they
    report success only when the wrapped call did. *)
Theorem slice_decorator_forwards {Alloc Candidate : Type}
    (wrapped_allocate : direction -> ue_grant -> ran_slice_id_t -> Alloc -> alloc_result * Alloc)
    (id : Candidate -> ran_slice_id_t) (store_grant : nat -> Candidate -> Candidate)
    (dir : direction) (grant : ue_grant) (w : @world Alloc Candidate) :
  let sid := id (w_candidate w) in
  let wrapped := wrapped_allocate dir grant sid (w_alloc w) in
  let result := fst (decorated wrapped_allocate id store_grant dir grant w) in
  let w' := snd (decorated wrapped_allocate id store_grant dir grant w) in
  result = fst wrapped
  /\ w_alloc w' = snd wrapped
  /\ (status (fst wrapped) = success ->
        w_calls w' = w_calls w ++ [call_allocate dir grant sid;
                                    call_store_grant (alloc_nof_rbs (fst wrapped))]
        /\ w_candidate w' = store_grant (alloc_nof_rbs (fst wrapped)) (w_candidate w))
  /\ (status (fst wrapped) <> success ->
        w_calls w' = w_calls w ++ [call_allocate dir grant sid]
        /\ w_candidate w' = w_candidate w)
  /\ (status result = success -> status (fst wrapped) = success).
Proof.
  intros sid wrapped result w'. subst result w'.
  rewrite decorated_unfold. cbv zeta. fold sid. fold wrapped.
  destruct (decide (status (fst wrapped) = success)) as [Hok|Hko]; cbn [fst snd w_alloc w_calls w_candidate].
  - repeat split; try tauto. rewrite <- app_assoc. reflexivity.
  - repeat split; tauto.
Qed.

(** With the slice candidate of the spec, the count of resource blocks of the
    slice grows by what was granted, and stays when the wrapped call failed. *)
Lemma slice_usage_after_grant {Alloc : Type}
    (wrapped_allocate : direction -> ue_grant -> ran_slice_id_t -> Alloc -> alloc_result * Alloc)
    (dir : direction) (grant : ue_grant) (w : @world Alloc ran_slice_candidate) :
  let wrapped := wrapped_allocate dir grant (slice_id (w_candidate w)) (w_alloc w) in
  rb_count (w_candidate (snd (decorated wrapped_allocate slice_id
                                ran_slice_candidate_store_grant dir grant w)))
  = if decide (status (fst wrapped) = success)
    then rb_count (w_candidate w) + alloc_nof_rbs (fst wrapped)
    else rb_count (w_candidate w).
Proof.
  intros wrapped. rewrite decorated_unfold. cbv zeta. fold wrapped.
  destruct (decide (status (fst wrapped) = success)); reflexivity.
Qed.

(** The downlink decorator over the allocator of the run: a grant of one
    resource block is stored with the slice; a request for a cell that was
    never added fails and stores nothing. *)
Example slice_decorator_run :
  let w := {| w_alloc := run_0;
              w_candidate := {| slice_id := 1; rb_count := 0 |};
              w_calls := [] |} in
  let decorator := decorated allocate_grant slice_id ran_slice_candidate_store_grant DL in
  let granted := decorator (run_request 7 1) w in
  let refused := decorator {| user := 7; cell_index := 3; nof_rbs := 1 |} w in
  fst granted = {| status := success; alloc_nof_rbs := 1 |}
  /\ w_candidate (snd granted) = {| slice_id := 1; rb_count := 1 |}
  /\ w_calls (snd granted) = [call_allocate DL (run_request 7 1) 1; call_store_grant 1]
  /\ fst refused = {| status := failure unknown_cell; alloc_nof_rbs := 0 |}
  /\ w_candidate (snd refused) = {| slice_id := 1; rb_count := 0 |}
  /\ w_calls (snd refused) = [call_allocate DL {| user := 7; cell_index := 3; nof_rbs := 1 |} 1].
Proof. repeat split. Qed.

End SliceProofs.

(* ===================================================================== *)
(** ** The grid allocator: no two grants overlap *)
(* ===================================================================== *)

Module GridProofs.
Import Sched.

Lemma disjoint_grants_sym (g1 g2 : grant) :
  disjoint_grants g1 g2 -> disjoint_grants g2 g1.
Proof. unfold disjoint_grants. intros H p Hp2 Hp1. exact (H p Hp1 Hp2). Qed.

Lemma separated_snoc (gs : list grant) (g : grant) :
  separated gs -> Forall (fun g' => disjoint_grants g' g) gs -> separated (gs ++ [g]).
Proof.
  induction gs as [|g0 gs IH]; cbn [separated app]; intros Hsep Hall.
  - split; [constructor | exact I].
  - destruct Hsep as [Hhead Hrest]. inversion_clear Hall as [|? ? Hg0 Hgs].
    split.
    + apply Forall_app. split; [exact Hhead|]. constructor; [exact Hg0 | constructor].
    + apply IH; assumption.
Qed.

Lemma separated_lookup (gs : list grant) :
  separated gs ->
  forall i j g1 g2, i < j -> gs !! i = Some g1 -> gs !! j = Some g2 ->
  disjoint_grants g1 g2.
Proof.
  induction gs as [|g0 gs IH]; intros Hsep i j g1 g2 Hij Hi Hj.
  - rewrite lookup_nil in Hi. discriminate.
  - destruct Hsep as [Hhead Hrest]. destruct j as [|j]; [lia|].
    cbn in Hj. destruct i as [|i].
    + cbn in Hi. injection Hi as <-.
      rewrite Forall_forall in Hhead. apply Hhead.
      eapply list_elem_of_lookup_2. exact Hj.
    + cbn in Hi. apply (IH Hrest i j); [lia | assumption | assumption].
Qed.

Lemma separated_pairwise_disjoint (gs : list grant) :
  separated gs -> pairwise_disjoint gs.
Proof.
  intros Hsep i j g1 g2 Hne Hi Hj.
  destruct (Nat.lt_total i j) as [Hlt|[Heq|Hgt]]; [| congruence |].
  - exact (separated_lookup gs Hsep i j g1 g2 Hlt Hi Hj).
  - apply disjoint_grants_sym. exact (separated_lookup gs Hsep j i g2 g1 Hgt Hj Hi).
Qed.

(** *** Reservation *)

Lemma lookup_foldr_insert (occ : gmap rb_symbol occupant) (ps : list rb_symbol)
    (who : occupant) (q : rb_symbol) :
  foldr (fun p m => <[p := who]> m) occ ps !! q
  = if decide (q ∈ ps) then Some who else occ !! q.
Proof.
  induction ps as [|p ps IH]; cbn [foldr].
  - rewrite decide_False by apply not_elem_of_nil. reflexivity.
  - destruct (decide (p = q)) as [->|Hne].
    + rewrite lookup_insert_eq, decide_True by (apply elem_of_cons; auto). reflexivity.
    + rewrite lookup_insert_ne by exact Hne. rewrite IH.
      destruct (decide (q ∈ ps)) as [Hin|Hnin].
      * rewrite decide_True by (apply elem_of_cons; auto). reflexivity.
      * rewrite decide_False; [reflexivity|].
        intros [Heq|Hin]%elem_of_cons; [congruence | contradiction].
Qed.

(** A reservation that succeeds found all its positions free, keeps what was
    taken and takes its positions. *)
Lemma reserve_Some (occ occ' : gmap rb_symbol occupant) (ps : list rb_symbol)
    (who : occupant) :
  reserve occ ps who = Some occ' ->
  (forall p, p ∈ ps -> occ !! p = None)
  /\ (forall p, is_Some (occ !! p) -> is_Some (occ' !! p))
  /\ (forall p, p ∈ ps -> is_Some (occ' !! p)).
Proof.
  unfold reserve. destruct (forallb (is_free occ) ps) eqn:Hfree; [|discriminate].
  intros [= <-]. rewrite forallb_forall in Hfree.
  split; [|split].
  - intros p Hp. apply list_elem_of_In in Hp. specialize (Hfree p Hp).
    unfold is_free in Hfree. apply bool_decide_eq_true in Hfree. exact Hfree.
  - intros p Hp. rewrite lookup_foldr_insert. destruct (decide (p ∈ ps)); [eauto | exact Hp].
  - intros p Hp. rewrite lookup_foldr_insert, decide_True by exact Hp. eauto.
Qed.

(** A reservation on a position that is taken fails. *)
Lemma reserve_taken (occ : gmap rb_symbol occupant) (ps : list rb_symbol)
    (who : occupant) (p : rb_symbol) :
  p ∈ ps -> is_Some (occ !! p) -> reserve occ ps who = None.
Proof.
  intros Hp Htaken. destruct (reserve occ ps who) as [occ'|] eqn:Hres; [|reflexivity].
  apply reserve_Some in Hres as (Hfree & _ & _).
  rewrite (Hfree p Hp) in Htaken. destruct Htaken as [? [=]].
Qed.

(** *** The grids *)

Lemma empty_grid_wf (idx : du_cell_index_t) (s : slot_point) :
  grid_wf (empty_grid s) /\ grid_tagged idx (empty_grid s).
Proof.
  split; [|constructor].
  intros dir. cbn. split; [constructor | exact I].
Qed.

Lemma make_cell_resource_allocator_wf idx nrbs tdd n :
  Forall (fun sg => grid_wf sg /\ grid_tagged idx sg)
         (ring (make_cell_resource_allocator nrbs tdd n)).
Proof.
  cbn [make_cell_resource_allocator ring]. apply Forall_forall.
  intros sg Hin. apply list_elem_of_In, in_map_iff in Hin as (s & <- & _).
  apply empty_grid_wf.
Qed.

Lemma set_grid_wf (P : slot_grid -> Prop) (ca : cell_resource_allocator) (sg : slot_grid) :
  Forall P (ring ca) -> P sg -> Forall P (ring (set_grid ca sg)).
Proof. intros Hring Hsg. cbn [set_grid ring]. apply Forall_insert; assumption. Qed.

Lemma cell_slot_indication_wf idx (sl : slot_point) (ca : cell_resource_allocator) :
  Forall (fun sg => grid_wf sg /\ grid_tagged idx sg) (ring ca) ->
  Forall (fun sg => grid_wf sg /\ grid_tagged idx sg) (ring (cell_slot_indication sl ca)).
Proof.
  intros Hring. unfold cell_slot_indication.
  apply set_grid_wf; [exact Hring | apply empty_grid_wf].
Qed.

Lemma grid_at_elem (ca : cell_resource_allocator) (s : slot_point) (sg : slot_grid) :
  grid_at ca s = Some sg -> sg ∈ ring ca /\ sg_slot sg = s.
Proof.
  unfold grid_at. destruct (ring ca !! (s mod length (ring ca))) as [sg0|] eqn:Hl; [|discriminate].
  destruct (decide (sg_slot sg0 = s)) as [Hs|]; [|discriminate].
  intros [= <-]. split; [eapply list_elem_of_lookup_2; exact Hl | exact Hs].
Qed.

Lemma filter_dir_snoc (dir dir0 : direction) (gs : list grant) (g : grant) :
  g_dir g = dir ->
  filter (fun g' => g_dir g' = dir0) (gs ++ [g])
  = filter (fun g' => g_dir g' = dir0) gs ++ (if decide (dir = dir0) then [g] else []).
Proof.
  intros Hg. rewrite filter_app. f_equal.
  rewrite filter_cons, filter_nil. rewrite Hg.
  destruct (decide (dir = dir0)); reflexivity.
Qed.

(** A grid stays well formed when a grant is added whose positions the
    reservation found free: no grant placed before lies on them. *)
Lemma add_grant_wf (dir : direction) (sg : slot_grid) (g : grant)
    (who : occupant) (occ' : gmap rb_symbol occupant) :
  grid_wf sg -> g_dir g = dir ->
  reserve (occupancy dir sg) (grant_positions g) who = Some occ' ->
  grid_wf {| sg_slot := sg_slot sg;
             sg_dl := match dir with DL => occ' | UL => sg_dl sg end;
             sg_ul := match dir with DL => sg_ul sg | UL => occ' end;
             sg_grants := sg_grants sg ++ [g] |}.
Proof.
  intros Hwf Hdir Hres.
  apply reserve_Some in Hres as (Hfree & Hkeep & Htake).
  intros dir0. destruct (Hwf dir0) as [Hcov Hsep].
  cbn [sg_grants]. rewrite (filter_dir_snoc dir dir0) by exact Hdir.
  destruct (decide (dir = dir0)) as [<-|Hne].
  - assert (Hocc : occupancy dir
              {| sg_slot := sg_slot sg;
                 sg_dl := match dir with DL => occ' | UL => sg_dl sg end;
                 sg_ul := match dir with DL => sg_ul sg | UL => occ' end;
                 sg_grants := sg_grants sg ++ [g] |} = occ')
      by (destruct dir; reflexivity).
    rewrite Hocc. split.
    + apply Forall_app. split.
      * eapply Forall_impl; [exact Hcov|]. cbv beta. intros g' Hg' p Hp.
        apply Hkeep, Hg', Hp.
      * constructor; [|constructor]. intros p Hp. apply Htake, Hp.
    + apply separated_snoc; [exact Hsep|].
      eapply Forall_impl; [exact Hcov|]. cbv beta. intros g' Hg' p Hp Hpg.
      specialize (Hg' p Hp). rewrite (Hfree p Hpg) in Hg'. destruct Hg' as [? [=]].
  - rewrite app_nil_r.
    assert (Hocc : occupancy dir0
              {| sg_slot := sg_slot sg;
                 sg_dl := match dir with DL => occ' | UL => sg_dl sg end;
                 sg_ul := match dir with DL => sg_ul sg | UL => occ' end;
                 sg_grants := sg_grants sg ++ [g] |} = occupancy dir0 sg)
      by (destruct dir, dir0; try reflexivity; contradiction).
    rewrite Hocc. split; assumption.
Qed.

(** Placing a grant keeps the grids of the cell well formed and tagged. *)
Lemma place_wf (dir : direction) (req : ue_grant) (slice : ran_slice_id_t)
    (pl : placement) (ca ca' : cell_resource_allocator) :
  Forall (fun sg => grid_wf sg /\ grid_tagged (cell_index req) sg) (ring ca) ->
  place dir req slice pl ca = Some ca' ->
  Forall (fun sg => grid_wf sg /\ grid_tagged (cell_index req) sg) (ring ca').
Proof.
  intros Hring. unfold place.
  destruct (grid_at ca (pl_slot pl)) as [sg|] eqn:Hat; [|discriminate].
  set (g := {| g_ue := user req; g_cell := cell_index req; g_slot := pl_slot pl;
               g_dir := dir; g_slice := slice; g_rbs := pl_rbs pl;
               g_symbols := pl_symbols pl |}).
  destruct (reserve (occupancy dir sg) (grant_positions g) (allocated (user req)))
    as [occ'|] eqn:Hres; [|discriminate].
  intros [= <-]. apply set_grid_wf; [exact Hring|].
  apply grid_at_elem in Hat as [Hin Hslot].
  rewrite Forall_forall in Hring. destruct (Hring sg Hin) as [Hwf Htag].
  split.
  - exact (add_grant_wf dir sg g _ occ' Hwf eq_refl Hres).
  - unfold grid_tagged. cbn [sg_grants sg_slot]. apply Forall_app.
    split; [exact Htag|]. constructor; [|constructor].
    cbn [g g_cell g_slot]. split; [reflexivity | symmetry; exact Hslot].
Qed.

(** *** The steps of the allocator *)

Lemma make_ue_cell_grid_allocator_wf cfg : alloc_wf (make_ue_cell_grid_allocator cfg).
Proof. intros idx c Hc. cbn in Hc. rewrite lookup_empty in Hc. discriminate. Qed.

Lemma add_cell_wf idx pdcch uci ca a :
  Forall (fun sg => grid_wf sg /\ grid_tagged idx sg) (ring ca) ->
  alloc_wf a -> alloc_wf (add_cell idx pdcch uci ca a).
Proof.
  intros Hca Ha. unfold add_cell.
  destruct (_ && _); [|exact Ha].
  intros idx' c'. cbn [cells]. intros [[<- <-]|[_ Hold]]%lookup_insert_Some.
  - exact Hca.
  - exact (Ha idx' c' Hold).
Qed.

Lemma slot_indication_wf sl a : alloc_wf a -> alloc_wf (slot_indication sl a).
Proof.
  intros Ha idx c'. cbn [slot_indication cells].
  intros (c & <- & Hc)%lookup_fmap_Some. cbn [cell_alloc].
  apply cell_slot_indication_wf. exact (Ha idx c Hc).
Qed.

Lemma allocate_grant_wf dir req slice a :
  alloc_wf a -> alloc_wf (snd (allocate_grant dir req slice a)).
Proof.
  intros Ha. unfold allocate_grant.
  destruct (cells a !! cell_index req) as [c|] eqn:Hc; [|exact Ha].
  destruct (pool_reserve _ _ (pdcch_sched c)) as [pdcch'|]; [|exact Ha].
  match goal with
  | |- context [match ?x with Some _ => _ | None => (failed no_pucch_resource, _) end] =>
      destruct x as [uci'|]; [|exact Ha]
  end.
  cbv zeta.
  destruct (sr_found _) as [pl|]; [|exact Ha].
  destruct (place dir req slice pl (cell_alloc c)) as [ca'|] eqn:Hplace; [|exact Ha].
  cbn [snd]. intros idx c'. cbn [cells with_cell with_no_space_slots count_attempt].
  intros [[<- <-]|[_ Hold]]%lookup_insert_Some.
  - cbn [cell_alloc]. eapply place_wf; [|exact Hplace]. exact (Ha _ c Hc).
  - exact (Ha idx c' Hold).
Qed.

Lemma step_wf a a' : step a a' -> alloc_wf a -> alloc_wf a'.
Proof.
  intros [idx pdcch uci nrbs tdd n a0|sl a0|grant slice a0|grant slice a0] Ha.
  - apply add_cell_wf; [apply make_cell_resource_allocator_wf | exact Ha].
  - apply slot_indication_wf, Ha.
  - apply allocate_grant_wf, Ha.
  - apply allocate_grant_wf, Ha.
Qed.

Lemma reachable_wf cfg a : reachable cfg a -> alloc_wf a.
Proof.
  induction 1 as [|a a' _ IH Hstep].
  - apply make_ue_cell_grid_allocator_wf.
  - exact (step_wf a a' Hstep IH).
Qed.

(** C1. In every state the allocator reaches, for every cell, slot and
    direction, the grants placed for them are grants of that cell, slot and
    direction, and no two of them lie on a common resource block at a common
    symbol. *)
Theorem grants_never_overlap (cfg : scheduler_ue_expert_config)
    (a : ue_cell_grid_allocator) :
  reachable cfg a ->
  forall (idx : du_cell_index_t) (s : slot_point) (dir : direction),
    Forall (fun g => g_cell g = idx /\ g_slot g = s /\ g_dir g = dir)
           (grants_of a idx s dir)
    /\ pairwise_disjoint (grants_of a idx s dir).
Proof.
  intros Hreach idx s dir. apply reachable_wf in Hreach.
  unfold grants_of.
  destruct (cells a !! idx) as [c|] eqn:Hc.
  - destruct (grid_at (cell_alloc c) s) as [sg|] eqn:Hat.
    + apply grid_at_elem in Hat as [Hin Hslot].
      specialize (Hreach idx c Hc). rewrite Forall_forall in Hreach.
      destruct (Hreach sg Hin) as [Hwf Htag]. split.
      * apply Forall_forall. intros g [Hdir Hg]%list_elem_of_filter.
        unfold grid_tagged in Htag. rewrite Forall_forall in Htag.
        destruct (Htag g Hg) as [Hcell Hgslot].
        split; [exact Hcell|]. split; [congruence | exact Hdir].
      * apply separated_pairwise_disjoint. exact (proj2 (Hwf dir)).
    + split; [constructor|].
      intros i j g1 g2 _ Hi. rewrite lookup_nil in Hi. discriminate.
  - split; [constructor|].
    intros i j g1 g2 _ Hi. rewrite lookup_nil in Hi. discriminate.
Qed.

(** A run that places two grants in slot 0 of cell 0: they do not overlap. *)
Lemma grants_never_overlap_witness :
  reachable run_cfg run_2
  /\ map g_rbs (grants_of run_2 0 0 DL) = [[0]; [1]]
  /\ Forall (fun g => g_cell g = 0 /\ g_slot g = 0 /\ g_dir g = DL) (grants_of run_2 0 0 DL)
  /\ pairwise_disjoint (grants_of run_2 0 0 DL).
Proof.
  assert (Hreach : reachable run_cfg run_2).
  { unfold run_2, run_1, run_0.
    eapply reachable_step; [|apply step_allocate_dl_grant].
    eapply reachable_step; [|apply step_allocate_dl_grant].
    eapply reachable_step; [|apply step_slot_indication].
    eapply reachable_step; [|apply step_add_cell].
    apply reachable_init. }
  split; [exact Hreach|]. split; [reflexivity|].
  apply (grants_never_overlap run_cfg run_2 Hreach).
Defined.

End GridProofs.

(* ===================================================================== *)
(** ** The grid allocator: the lists of slots without space *)
(* ===================================================================== *)

Module CacheProofs.
Import Sched SchedProtocol GridProofs.

Lemma candidate_slots_NoDup cfg dir sl : NoDup (candidate_slots cfg dir sl).
Proof.
  unfold candidate_slots.
  apply (NoDup_fmap_2_strong (fun k => sl + k)); [|apply NoDup_seq].
  intros x y _ _ Heq. lia.
Qed.

(** What a search does with the list of full slots: it runs the placement
    search on no slot of the list, and it appends the slots it searched and
    found without space, each once. *)
Lemma search_slots_spec (dir : direction) (ca : cell_resource_allocator) (n : nat)
    (candidates : list slot_point) :
  NoDup candidates ->
  forall full,
    let r := search_slots dir ca n candidates full in
    (forall s, s ∈ sr_searched r -> s ∈ candidates /\ s ∉ full)
    /\ sr_no_space r
       = full ++ filter (fun s => find_space dir ca s n = no_space) (sr_searched r)
    /\ (NoDup full -> NoDup (sr_no_space r)).
Proof.
  induction candidates as [|s rest IH]; intros Hnd full; cbn [search_slots].
  - cbn. split; [|split].
    + intros s Hs. apply elem_of_nil in Hs. contradiction.
    + rewrite app_nil_r. reflexivity.
    + auto.
  - apply NoDup_cons in Hnd as [Hs Hrest].
    destruct (bool_decide (s ∈ full)) eqn:Hfull.
    + destruct (IH Hrest full) as (Hsub & Heq & Hdup).
      split; [|split]; [|exact Heq|exact Hdup].
      intros s' Hs'. destruct (Hsub s' Hs') as [Hin Hnin].
      split; [apply elem_of_cons; auto | exact Hnin].
    + apply bool_decide_eq_false in Hfull.
      destruct (find_space dir ca s n) as [rbs symbols| |] eqn:Hspace; cbn [sr_searched sr_no_space].
      * split; [|split].
        -- intros s' ->%list_elem_of_singleton. split; [apply elem_of_cons; auto | exact Hfull].
        -- rewrite filter_cons_False, filter_nil, app_nil_r by (rewrite Hspace; discriminate).
           reflexivity.
        -- auto.
      * destruct (IH Hrest (full ++ [s])) as (Hsub & Heq & Hdup).
        split; [|split].
        -- intros s' [->|Hs']%elem_of_cons.
           ++ split; [apply elem_of_cons; auto | exact Hfull].
           ++ destruct (Hsub s' Hs') as [Hin Hnin].
              split; [apply elem_of_cons; auto|].
              intros Hin'. apply Hnin, elem_of_app. auto.
        -- rewrite Heq, filter_cons_True by exact Hspace.
           rewrite <- app_assoc. reflexivity.
        -- intros Hndfull. apply Hdup. apply NoDup_app. split; [exact Hndfull|].
           split; [|apply NoDup_singleton].
           intros x Hx ->%list_elem_of_singleton. contradiction.
      * destruct (IH Hrest full) as (Hsub & Heq & Hdup).
        split; [|split]; [| |exact Hdup].
        -- intros s' [->|Hs']%elem_of_cons.
           ++ split; [apply elem_of_cons; auto | exact Hfull].
           ++ destruct (Hsub s' Hs') as [Hin Hnin].
              split; [apply elem_of_cons; auto | exact Hnin].
        -- rewrite Heq, filter_cons_False by (rewrite Hspace; discriminate). reflexivity.
Qed.

Lemma allocation_search_Some (dir : direction) (req : ue_grant)
    (a : ue_cell_grid_allocator) (c : cell_t) (r : search_result) :
  allocation_search dir req a = Some (c, r) ->
  cells a !! cell_index req = Some c
  /\ r = search_slots dir (cell_alloc c) (nof_rbs req)
           (candidate_slots (expert_cfg a) dir (slot_tx (cell_alloc c)))
           (no_space_slots dir a).
Proof.
  unfold allocation_search. intros Hsearch.
  destruct (cells a !! cell_index req) as [c0|]; [|discriminate].
  destruct (pool_reserve _ _ (pdcch_sched c0)); [|discriminate].
  match type of Hsearch with
  | match ?x with Some _ => _ | None => None end = _ => destruct x; [|discriminate]
  end.
  injection Hsearch as <- <-. split; reflexivity.
Qed.

(** The lists an allocation leaves, read off the search it ran. *)
Lemma allocate_grant_no_space_slots (dir : direction) (req : ue_grant)
    (slice : ran_slice_id_t) (a : ue_cell_grid_allocator) (d : direction) :
  no_space_slots d (snd (allocate_grant dir req slice a))
  = match allocation_search dir req a with
    | Some (_, r) => if decide (d = dir) then sr_no_space r else no_space_slots d a
    | None => no_space_slots d a
    end.
Proof.
  unfold allocate_grant, allocation_search.
  destruct (cells a !! cell_index req) as [c|]; [|reflexivity].
  destruct (pool_reserve _ _ (pdcch_sched c)) as [pdcch'|]; [|reflexivity].
  match goal with
  | |- context [match ?x with Some _ => _ | None => (failed no_pucch_resource, _) end] =>
      destruct x as [uci'|]; [|reflexivity]
  end.
  cbv zeta.
  destruct (sr_found _) as [pl|];
    [destruct (place dir req slice pl (cell_alloc c)) as [ca'|]|];
    cbn [snd]; destruct dir, d; reflexivity.
Qed.

(** In the run, slot 0 is full after two grants. The third attempt finds it
    full, puts it on the list and places its grant in slot 1; the fourth skips
    slot 0, finds slot 1 full and fails; the next [slot_indication] clears the
    list. *)
Example no_space_slots_run :
  slots_with_no_pdsch_space run_2 = []
  /\ slots_with_no_pdsch_space run_3 = [0]
  /\ (snd <$> allocation_search DL (run_request 9 2) run_3)
     = Some {| sr_found := None; sr_searched := [1]; sr_no_space := [0; 1] |}
  /\ status (fst (allocate_dl_grant (run_request 9 2) 1 run_3)) = failure no_rb_capacity
  /\ slots_with_no_pdsch_space (snd (allocate_dl_grant (run_request 9 2) 1 run_3)) = [0; 1]
  /\ slots_with_no_pdsch_space
       (slot_indication 1 (snd (allocate_dl_grant (run_request 9 2) 1 run_3))) = [].
Proof. repeat split. Qed.

(** In every state the allocator reaches, neither list repeats a slot. *)
Lemma reachable_no_space_slots_NoDup cfg a :
  reachable cfg a -> forall dir, NoDup (no_space_slots dir a).
Proof.
  induction 1 as [|a a' _ IH Hstep]; intros dir.
  - destruct dir; apply NoDup_nil_2.
  - destruct Hstep as [idx pdcch uci nrbs tdd n a|sl a|grant slice a|grant slice a].
    + unfold add_cell. destruct (_ && _); [|apply IH].
      destruct dir; [exact (IH DL) | exact (IH UL)].
    + destruct dir; apply NoDup_nil_2.
    + unfold allocate_dl_grant. rewrite allocate_grant_no_space_slots.
      destruct (allocation_search DL grant a) as [[c r]|] eqn:Hs; [|apply IH].
      destruct (decide (dir = DL)) as [->|]; [|apply IH].
      apply allocation_search_Some in Hs as [_ ->].
      apply search_slots_spec; [apply candidate_slots_NoDup | apply IH].
    + unfold allocate_ul_grant. rewrite allocate_grant_no_space_slots.
      destruct (allocation_search UL grant a) as [[c r]|] eqn:Hs; [|apply IH].
      destruct (decide (dir = UL)) as [->|]; [|apply IH].
      apply allocation_search_Some in Hs as [_ ->].
      apply search_slots_spec; [apply candidate_slots_NoDup | apply IH].
Qed.

(** *** The placement search in one slot *)







(** *** Placing a grant *)





(** *** The search over the candidate slots *)





(** *** One allocation *)



(** *** The invariant of a run *)





End CacheProofs.

(* ===================================================================== *)
(** ** The packing on arbitrary samples and its wire format *)
(* ===================================================================== *)

Module NeonFormatProofs.
Import CInt Support Neon NeonProofs NeonFormat.
Local Open Scope Z_scope.

(** *** Bits of the lane arithmetic *)

Lemma wrap_s_congr (w z : Z) : 0 < w -> wrap_s w z mod 2 ^ w = z mod 2 ^ w.
Proof.
  intros Hw. unfold wrap_s.
  assert (Hp : 0 < 2 ^ w) by (apply Z.pow_pos_nonneg; lia).
  assert (Hh : 2 ^ w = 2 * 2 ^ (w - 1)).
  { replace w with (Z.succ (w - 1)) at 1 by lia. apply Z.pow_succ_r. lia. }
  assert (Hq : 0 < 2 ^ (w - 1)) by (apply Z.pow_pos_nonneg; lia).
  rewrite <- Zminus_mod_idemp_l, Zmod_mod, Zminus_mod_idemp_l.
  f_equal. lia.
Qed.

Lemma testbit_wrap_s (w z i : Z) :
  0 <= i < w -> Z.testbit (wrap_s w z) i = Z.testbit z i.
Proof.
  intros Hi.
  rewrite <- (Z.mod_pow2_bits_low (wrap_s w z) w i), <- (Z.mod_pow2_bits_low z w i) by lia.
  rewrite wrap_s_congr by lia. reflexivity.
Qed.

(** Shifting a sample to the left by [s], truncating to sixteen bits and
    masking with nine ones shifted by [s] leaves the low nine bits of the
    sample, shifted by [s]. *)
Lemma shl_and_field (x s : Z) :
  0 <= s <= 7 ->
  shl_and s (wrap_s 16 (Z.shiftl 511 s)) x mod 2 ^ 16 = (x mod 2 ^ 9) * 2 ^ s.
Proof.
  intros Hs. unfold shl_and.
  assert (Hws : wrap_s 8 s = s).
  { unfold wrap_s. change (2 ^ (8 - 1)) with 128. change (2 ^ 8) with 256.
    Z.div_mod_to_equations. lia. }
  rewrite Hws.
  apply Z.bits_inj'. intros i Hi.
  destruct (Z.lt_ge_cases i 16) as [Hlt|Hge].
  - rewrite Z.mod_pow2_bits_low by lia.
    rewrite Z.land_spec, !testbit_wrap_s by lia.
    rewrite !Z.shiftl_spec by lia.
    rewrite <- Z.shiftl_mul_pow2, Z.shiftl_spec by lia.
    destruct (Z.lt_ge_cases (i - s) 0) as [Hneg|Hnn].
    + rewrite !Z.testbit_neg_r by lia. reflexivity.
    + destruct (Z.lt_ge_cases (i - s) 9) as [Hin|Hout].
      * rewrite Z.mod_pow2_bits_low by lia.
        change 511 with (Z.ones 9). rewrite Z.ones_spec_low by lia.
        apply andb_true_r.
      * rewrite Z.mod_pow2_bits_high by lia.
        change 511 with (Z.ones 9). rewrite Z.ones_spec_high by lia.
        apply andb_false_r.
  - rewrite Z.mod_pow2_bits_high by lia.
    rewrite <- Z.shiftl_mul_pow2, Z.shiftl_spec by lia.
    rewrite Z.mod_pow2_bits_high by lia. reflexivity.
Qed.

Lemma lo8_mod (v : Z) : lo8 v = v mod 256.
Proof. unfold lo8, wrap_u. change (2 ^ 8) with (2 ^ 8). apply (wrap_s_congr 8 v). lia. Qed.

Lemma hi8_mod (v : Z) : hi8 v = (v / 256) mod 256.
Proof.
  unfold hi8, wrap_u. rewrite (wrap_s_congr 8) by lia.
  rewrite Z.shiftr_div_pow2 by lia. reflexivity.
Qed.

(** The two bytes of lane [k], whatever the sample. *)
Lemma lane_bytes_any (k x : Z) :
  0 <= k < 8 ->
  0 <= lo8 (pack_lane k x) /\ 0 <= hi8 (pack_lane k x)
  /\ lo8 (pack_lane k x) + 256 * hi8 (pack_lane k x) = (x mod 512) * 2 ^ (7 - k)
  /\ lo8 (pack_lane k x) = (x mod 2 ^ (k + 1)) * 2 ^ (7 - k).
Proof.
  intros Hk.
  pose proof (shl_and_field x (7 - k) ltac:(lia)) as Hfield.
  change (shl_and (7 - k) (wrap_s 16 (Z.shiftl 511 (7 - k))) x) with (pack_lane k x) in Hfield.
  rewrite lo8_mod, hi8_mod. set (v := pack_lane k x) in *.
  change (2 ^ 9) with 512 in Hfield. change (2 ^ 16) with 65536 in Hfield.
  assert (Hx : 0 <= x mod 512 < 512) by (apply Z.mod_pos_bound; lia).
  assert (Hxk : x mod 2 ^ (k + 1) = (x mod 512) mod 2 ^ (k + 1)).
  { destruct (small_cases k Hk) as [->|[->|[->|[->|[->|[->|[->| ->]]]]]]];
      eval_pow2; Z.div_mod_to_equations; lia. }
  rewrite Hxk. set (u := x mod 512) in *.
  destruct (small_cases k Hk) as [->|[->|[->|[->|[->|[->|[->| ->]]]]]]];
    eval_pow2; Z.div_mod_to_equations; lia.
Qed.

(** Lane [k] read back from its two bytes, joined with the bits [a] of the
    sample before and [d] of the sample after: the low nine bits of the
    sample, sign-extended. *)
Lemma unpack_lane_sum_any (k a lo hi d x : Z) :
  0 <= k < 8 ->
  0 <= a < 256 -> a mod 2 ^ (8 - k) = 0 ->
  0 <= d < 2 ^ (7 - k) ->
  lo + 256 * hi = (x mod 512) * 2 ^ (7 - k) ->
  unpack_lane k (a + hi) (lo + d) = wrap_s 9 x.
Proof.
  intros Hk Ha Hmod Hd Hbytes.
  assert (Hx : 0 <= x mod 512 < 512) by (apply Z.mod_pos_bound; lia).
  assert (Hw : wrap_s 9 x = if x mod 512 <? 256 then x mod 512 else x mod 512 - 512).
  { unfold wrap_s. change (2 ^ (9 - 1)) with 256. change (2 ^ 9) with 512.
    destruct (x mod 512 <? 256) eqn:E; [apply Z.ltb_lt in E | apply Z.ltb_ge in E];
      Z.div_mod_to_equations; lia. }
  rewrite Hw. set (u := x mod 512) in *.
  unfold unpack_lane, wrap_s, wrap_u.
  rewrite Z.shiftr_div_pow2, Z.shiftl_mul_pow2 by
    (destruct (small_cases k Hk) as [->|[->|[->|[->|[->|[->|[->| ->]]]]]]];
     vm_compute; discriminate).
  destruct (u <? 256) eqn:E; [apply Z.ltb_lt in E | apply Z.ltb_ge in E];
    destruct (small_cases k Hk) as [->|[->|[->|[->|[->|[->|[->| ->]]]]]]];
    eval_pow2; Z.div_mod_to_equations; lia.
Qed.

Lemma prev_byte_any (k x : Z) :
  1 <= k < 8 ->
  0 <= lo8 (pack_lane (k - 1) x) < 256 /\ lo8 (pack_lane (k - 1) x) mod 2 ^ (8 - k) = 0.
Proof.
  intros Hk.
  destruct (lane_bytes_any (k - 1) x ltac:(lia)) as (_ & _ & _ & ->).
  replace (k - 1 + 1) with k by lia. replace (7 - (k - 1)) with (8 - k) by lia.
  assert (Hp : 0 < 2 ^ (8 - k)) by (apply Z.pow_pos_nonneg; lia).
  assert (Hm : 0 <= x mod 2 ^ k < 2 ^ k) by (apply Z.mod_pos_bound, Z.pow_pos_nonneg; lia).
  assert (Hpk : 2 ^ k * 2 ^ (8 - k) = 256).
  { rewrite <- Z.pow_add_r by lia. replace (k + (8 - k)) with 8 by lia. reflexivity. }
  split; [nia | apply Z.mod_mul; lia].
Qed.

Lemma next_byte_any (k x : Z) :
  0 <= k < 7 -> 0 <= hi8 (pack_lane (k + 1) x) < 2 ^ (7 - k).
Proof.
  intros Hk.
  destruct (lane_bytes_any (k + 1) x ltac:(lia)) as (Hlo & Hhi & Hsum & _).
  replace (7 - (k + 1)) with (6 - k) in Hsum by lia.
  assert (Hp : 0 < 2 ^ (6 - k)) by (apply Z.pow_pos_nonneg; lia).
  assert (Hp7 : 2 ^ (7 - k) = 2 * 2 ^ (6 - k)).
  { replace (7 - k) with (Z.succ (6 - k)) by lia. apply Z.pow_succ_r. lia. }
  assert (Hm : 0 <= x mod 512 < 512) by (apply Z.mod_pos_bound; lia).
  assert (Hpk : 2 ^ (6 - k) <= 64).
  { change 64 with (2 ^ 6). apply Z.pow_le_mono_r; lia. }
  nia.
Qed.

(** A byte of the packed register is the sum of its two parts. *)
Lemma packed_byte_sum (k a x d : Z) :
  0 <= k < 8 ->
  0 <= a < 256 -> a mod 2 ^ (8 - k) = 0 ->
  0 <= d < 2 ^ (7 - k) ->
  Z.lor a (hi8 (pack_lane k x)) = a + hi8 (pack_lane k x)
  /\ Z.lor (lo8 (pack_lane k x)) d = lo8 (pack_lane k x) + d.
Proof.
  intros Hk Ha Hmod Hd.
  destruct (lane_bytes_any k x Hk) as (Hlo & Hhi & Hsum & Hlow).
  assert (Hp7 : 0 < 2 ^ (7 - k)) by (apply Z.pow_pos_nonneg; lia).
  assert (Hp8 : 2 ^ (8 - k) = 2 * 2 ^ (7 - k)).
  { replace (8 - k) with (Z.succ (7 - k)) by lia. apply Z.pow_succ_r. lia. }
  assert (Hhi_lt : hi8 (pack_lane k x) < 2 ^ (8 - k)).
  { assert (0 <= x mod 512 < 512) by (apply Z.mod_pos_bound; lia).
    assert (Hpk : 2 ^ (8 - k) * 2 ^ k = 256).
    { rewrite <- Z.pow_add_r by lia. replace (8 - k + k) with 8 by lia. reflexivity. }
    assert (0 < 2 ^ k) by (apply Z.pow_pos_nonneg; lia).
    nia. }
  split.
  - apply (lor_disjoint a _ (8 - k)); lia.
  - apply (lor_disjoint _ d (7 - k)); [lia | | lia].
    rewrite Hlow. apply Z.mod_mul. lia.
Qed.

Lemma lane_roundtrip_any (k a x d : Z) :
  0 <= k < 8 ->
  0 <= a < 256 -> a mod 2 ^ (8 - k) = 0 ->
  0 <= d < 2 ^ (7 - k) ->
  unpack_lane k (Z.lor a (hi8 (pack_lane k x))) (Z.lor (lo8 (pack_lane k x)) d)
  = wrap_s 9 x.
Proof.
  intros Hk Ha Hmod Hd.
  destruct (packed_byte_sum k a x d Hk Ha Hmod Hd) as [-> ->].
  apply unpack_lane_sum_any; try assumption.
  apply (lane_bytes_any k x Hk).
Qed.

(** *** One register *)

Lemma register_roundtrip_any (x0 x1 x2 x3 x4 x5 x6 x7 : Z) :
  unpack_reg (take 9 (pack_neon_register_9b_big_endian [x0; x1; x2; x3; x4; x5; x6; x7]))
  = map (wrap_s 9) [x0; x1; x2; x3; x4; x5; x6; x7].
Proof.
  rewrite pack_neon_register_9b_bytes. unfold_vectors.
  assert (Hz : 0 <= 0 < 256 /\ 0 mod 2 ^ (8 - 0) = 0) by (split; [lia | reflexivity]).
  assert (Hz' : 0 <= 0 < 2 ^ (7 - 7)) by (split; [lia | reflexivity]).
  rewrite (lane_roundtrip_any 0 0 x0 _) by
    first [lia | apply Hz | apply (next_byte_any 0); lia].
  rewrite (lane_roundtrip_any 1 _ x1 _) by
    first [lia | apply (prev_byte_any 1); lia | apply (next_byte_any 1); lia].
  rewrite (lane_roundtrip_any 2 _ x2 _) by
    first [lia | apply (prev_byte_any 2); lia | apply (next_byte_any 2); lia].
  rewrite (lane_roundtrip_any 3 _ x3 _) by
    first [lia | apply (prev_byte_any 3); lia | apply (next_byte_any 3); lia].
  rewrite (lane_roundtrip_any 4 _ x4 _) by
    first [lia | apply (prev_byte_any 4); lia | apply (next_byte_any 4); lia].
  rewrite (lane_roundtrip_any 5 _ x5 _) by
    first [lia | apply (prev_byte_any 5); lia | apply (next_byte_any 5); lia].
  rewrite (lane_roundtrip_any 6 _ x6 _) by
    first [lia | apply (prev_byte_any 6); lia | apply (next_byte_any 6); lia].
  rewrite (lane_roundtrip_any 7 _ x7 0) by
    first [lia | apply Hz' | apply (prev_byte_any 7); lia].
  reflexivity.
Qed.

Lemma register_roundtrip_any_list (r : list Z) :
  length r = 8%nat ->
  unpack_reg (take 9 (pack_neon_register_9b_big_endian r)) = map (wrap_s 9) r.
Proof. intros Hlen. explicit_list r Hlen. apply register_roundtrip_any. Qed.

(** Packing keeps the low nine bits of every sample and nothing else:
    whatever the 24 samples, unpacking the packed buffer yields each sample
    reduced to nine bits in two's complement. A sample outside [-256, 255]
    wraps around; it is not saturated. *)
Theorem pack_unpack_prb_9b_truncates (r0 r1 r2 buf out : list Z) :
  length r0 = 8%nat -> length r1 = 8%nat -> length r2 = 8%nat ->
  length buf = 27%nat -> length out = 24%nat ->
  exists packed,
    pack_prb_9b_big_endian buf [r0; r1; r2] = Ok packed
    /\ unpack_prb_9b_big_endian out packed = map (wrap_s 9) (r0 ++ r1 ++ r2).
Proof.
  intros H0 H1 H2 Hbuf Hout.
  eexists. split; [apply pack_prb_9b_buffer; exact Hbuf|].
  change (val [r0; r1; r2] 0) with r0. change (val [r0; r1; r2] 1) with r1.
  change (val [r0; r1; r2] 2) with r2.
  rewrite unpack_prb_9b_groups by (first [exact Hout | apply take9_packed_length]).
  rewrite !register_roundtrip_any_list by assumption.
  rewrite !map_app. reflexivity.
Qed.

(** Samples beyond nine bits come back wrapped: 256 as -256, -257 as 255,
    32767 as -1. *)
Lemma pack_unpack_prb_9b_truncates_witness :
  exists packed,
    pack_prb_9b_big_endian (replicate 27 0)
      [[256; -257; 32767; -32768; 511; 512; 1000; -1000];
       [1; 2; 3; 4; 5; 6; 7; 8]; [0; 0; 0; 0; 0; 0; 0; 0]] = Ok packed
    /\ unpack_prb_9b_big_endian (replicate 24 0) packed
       = [-256; 255; -1; 0; -1; 0; -24; 24] ++ [1; 2; 3; 4; 5; 6; 7; 8]
         ++ [0; 0; 0; 0; 0; 0; 0; 0].
Proof.
  exact (pack_unpack_prb_9b_truncates
           [256; -257; 32767; -32768; 511; 512; 1000; -1000]
           [1; 2; 3; 4; 5; 6; 7; 8] [0; 0; 0; 0; 0; 0; 0; 0]
           (replicate 27 0) (replicate 24 0)
           eq_refl eq_refl eq_refl eq_refl eq_refl).
Defined.

(** *** The bit stream *)

(** The nine bytes of a packed register, each as the sum of its parts. *)
Lemma packed_register_sums (x0 x1 x2 x3 x4 x5 x6 x7 : Z) :
  take 9 (pack_neon_register_9b_big_endian [x0; x1; x2; x3; x4; x5; x6; x7])
  = [ hi8 (pack_lane 0 x0);
      lo8 (pack_lane 0 x0) + hi8 (pack_lane 1 x1);
      lo8 (pack_lane 1 x1) + hi8 (pack_lane 2 x2);
      lo8 (pack_lane 2 x2) + hi8 (pack_lane 3 x3);
      lo8 (pack_lane 3 x3) + hi8 (pack_lane 4 x4);
      lo8 (pack_lane 4 x4) + hi8 (pack_lane 5 x5);
      lo8 (pack_lane 5 x5) + hi8 (pack_lane 6 x6);
      lo8 (pack_lane 6 x6) + hi8 (pack_lane 7 x7);
      lo8 (pack_lane 7 x7) ].
Proof.
  rewrite pack_neon_register_9b_bytes. cbn [take].
  rewrite Z.lor_0_l, Z.lor_0_r.
  rewrite (proj1 (packed_byte_sum 1 (lo8 (pack_lane 0 x0)) x1 0 ltac:(lia)
                    (proj1 (prev_byte_any 1 x0 ltac:(lia)))
                    (proj2 (prev_byte_any 1 x0 ltac:(lia))) ltac:(vm_compute; intuition congruence))).
  rewrite (proj1 (packed_byte_sum 2 (lo8 (pack_lane 1 x1)) x2 0 ltac:(lia)
                    (proj1 (prev_byte_any 2 x1 ltac:(lia)))
                    (proj2 (prev_byte_any 2 x1 ltac:(lia))) ltac:(vm_compute; intuition congruence))).
  rewrite (proj1 (packed_byte_sum 3 (lo8 (pack_lane 2 x2)) x3 0 ltac:(lia)
                    (proj1 (prev_byte_any 3 x2 ltac:(lia)))
                    (proj2 (prev_byte_any 3 x2 ltac:(lia))) ltac:(vm_compute; intuition congruence))).
  rewrite (proj1 (packed_byte_sum 4 (lo8 (pack_lane 3 x3)) x4 0 ltac:(lia)
                    (proj1 (prev_byte_any 4 x3 ltac:(lia)))
                    (proj2 (prev_byte_any 4 x3 ltac:(lia))) ltac:(vm_compute; intuition congruence))).
  rewrite (proj1 (packed_byte_sum 5 (lo8 (pack_lane 4 x4)) x5 0 ltac:(lia)
                    (proj1 (prev_byte_any 5 x4 ltac:(lia)))
                    (proj2 (prev_byte_any 5 x4 ltac:(lia))) ltac:(vm_compute; intuition congruence))).
  rewrite (proj1 (packed_byte_sum 6 (lo8 (pack_lane 5 x5)) x6 0 ltac:(lia)
                    (proj1 (prev_byte_any 6 x5 ltac:(lia)))
                    (proj2 (prev_byte_any 6 x5 ltac:(lia))) ltac:(vm_compute; intuition congruence))).
  rewrite (proj1 (packed_byte_sum 7 (lo8 (pack_lane 6 x6)) x7 0 ltac:(lia)
                    (proj1 (prev_byte_any 7 x6 ltac:(lia)))
                    (proj2 (prev_byte_any 7 x6 ltac:(lia))) ltac:(vm_compute; intuition congruence))).
  reflexivity.
Qed.

(** The nine bytes of a packed register spell the eight samples as nine-bit
    fields, the first sample in the most significant bits. *)
Lemma packed_register_fields (r : list Z) :
  length r = 8%nat ->
  be_combine (take 9 (pack_neon_register_9b_big_endian r))
  = be_fields 9 (map (fun x => x mod 2 ^ 9) r).
Proof.
  intros Hlen.
  destruct r as [|z [|z0 [|z1 [|z2 [|z3 [|z4 [|z5 [|z6 [|]]]]]]]]]; try discriminate Hlen.
  rewrite packed_register_sums.
  cbv [be_combine rev app le_combine be_fields map fold_left].
  change (2 ^ 9) with 512.
  pose proof (lane_bytes_any 0 z ltac:(lia)) as (_ & _ & E0 & _).
  pose proof (lane_bytes_any 1 z0 ltac:(lia)) as (_ & _ & E1 & _).
  pose proof (lane_bytes_any 2 z1 ltac:(lia)) as (_ & _ & E2 & _).
  pose proof (lane_bytes_any 3 z2 ltac:(lia)) as (_ & _ & E3 & _).
  pose proof (lane_bytes_any 4 z3 ltac:(lia)) as (_ & _ & E4 & _).
  pose proof (lane_bytes_any 5 z4 ltac:(lia)) as (_ & _ & E5 & _).
  pose proof (lane_bytes_any 6 z5 ltac:(lia)) as (_ & _ & E6 & _).
  pose proof (lane_bytes_any 7 z6 ltac:(lia)) as (_ & _ & E7 & _).
  eval_pow2. lia.
Qed.

Lemma le_combine_app (a b : list Z) :
  le_combine (a ++ b) = le_combine a + 256 ^ Z.of_nat (length a) * le_combine b.
Proof.
  induction a as [|x a IH]; cbn [app le_combine length].
  - change (256 ^ Z.of_nat 0) with 1. lia.
  - rewrite IH, Nat2Z.inj_succ, Z.pow_succ_r by lia. lia.
Qed.

Lemma be_combine_app (a b : list Z) :
  be_combine (a ++ b) = be_combine a * 256 ^ Z.of_nat (length b) + be_combine b.
Proof.
  unfold be_combine. rewrite rev_app_distr, le_combine_app, length_rev. lia.
Qed.

Lemma fold_fields_app (w acc : Z) (a b : list Z) :
  fold_left (fun acc f => acc * 2 ^ w + f) (a ++ b) acc
  = fold_left (fun acc f => acc * 2 ^ w + f) b
      (fold_left (fun acc f => acc * 2 ^ w + f) a acc).
Proof. apply fold_left_app. Qed.

Lemma fold_fields_acc (w acc : Z) (l : list Z) :
  fold_left (fun acc f => acc * 2 ^ w + f) l acc
  = acc * (2 ^ w) ^ Z.of_nat (length l) + be_fields w l.
Proof.
  unfold be_fields. revert acc.
  induction l as [|f l IH]; intros acc; cbn [fold_left length].
  - change ((2 ^ w) ^ Z.of_nat 0) with 1. lia.
  - rewrite IH, (IH (0 * 2 ^ w + f)), Nat2Z.inj_succ, Z.pow_succ_r by lia. lia.
Qed.

Lemma be_fields_app (w : Z) (a b : list Z) :
  be_fields w (a ++ b) = be_fields w a * (2 ^ w) ^ Z.of_nat (length b) + be_fields w b.
Proof.
  unfold be_fields at 1. rewrite fold_fields_app, fold_fields_acc. reflexivity.
Qed.

(** The wire format of [pack_prb_9b_big_endian]. A packed register holds its
    eight samples in its first nine bytes and zeros in the other seven; and
    the 27 bytes of the buffer, read as one number with the first byte the
    most significant, are the low nine bits of the 24 samples one after the
    other, the first sample in the most significant bits. *)
Theorem pack_prb_9b_is_big_endian_bit_stream (r0 r1 r2 buf : list Z) :
  length r0 = 8%nat -> length r1 = 8%nat -> length r2 = 8%nat ->
  length buf = 27%nat ->
  drop 9 (pack_neon_register_9b_big_endian r0) = replicate 7 0
  /\ exists packed,
       pack_prb_9b_big_endian buf [r0; r1; r2] = Ok packed
       /\ be_combine packed = be_fields 9 (map (fun x => x mod 2 ^ 9) (r0 ++ r1 ++ r2)).
Proof.
  intros H0 H1 H2 Hbuf. split.
  - destruct r0 as [|z [|z0 [|z1 [|z2 [|z3 [|z4 [|z5 [|z6 [|]]]]]]]]]; try discriminate H0.
    rewrite pack_neon_register_9b_bytes. reflexivity.
  - eexists. split; [apply pack_prb_9b_buffer; exact Hbuf|].
    change (val [r0; r1; r2] 0) with r0. change (val [r0; r1; r2] 1) with r1.
    change (val [r0; r1; r2] 2) with r2.
    rewrite !be_combine_app, !map_app, !be_fields_app, !length_app, !length_map,
      !take9_packed_length, !packed_register_fields by assumption.
    rewrite H1, H2. change ((2 ^ 9) ^ Z.of_nat 8) with (256 ^ Z.of_nat 9).
    change ((2 ^ 9) ^ Z.of_nat (8 + 8)) with (256 ^ Z.of_nat (9 + 9)).
    reflexivity.
Qed.

(** Three registers of samples in nine bits: the buffer spells their bits. *)
Lemma pack_prb_9b_is_big_endian_bit_stream_witness :
  drop 9 (pack_neon_register_9b_big_endian [1; -1; 255; -256; 0; 5; -7; 100])
  = replicate 7 0
  /\ exists packed,
       pack_prb_9b_big_endian (replicate 27 0)
         [[1; -1; 255; -256; 0; 5; -7; 100]; [1; 2; 3; 4; 5; 6; 7; 8];
          [0; 0; 0; 0; 0; 0; 0; 511]] = Ok packed
       /\ be_combine packed
          = be_fields 9 (map (fun x => x mod 2 ^ 9)
                           ([1; -1; 255; -256; 0; 5; -7; 100] ++ [1; 2; 3; 4; 5; 6; 7; 8]
                            ++ [0; 0; 0; 0; 0; 0; 0; 511])).
Proof.
  exact (pack_prb_9b_is_big_endian_bit_stream
           [1; -1; 255; -256; 0; 5; -7; 100] [1; 2; 3; 4; 5; 6; 7; 8]
           [0; 0; 0; 0; 0; 0; 0; 511] (replicate 27 0)
           eq_refl eq_refl eq_refl eq_refl).
Defined.

(** *** Unpacking, then packing *)

(** The nine bits lane [k] reads from two bytes: the low [8 - k] bits of the
    first and the high [k + 1] bits of the second. *)
Lemma unpack_lane_field (k a b : Z) :
  0 <= k < 8 -> is_byte a -> is_byte b ->
  unpack_lane k a b mod 2 ^ 9 = (a mod 2 ^ (8 - k)) * 2 ^ (k + 1) + b / 2 ^ (7 - k).
Proof.
  unfold is_byte. intros Hk Ha Hb.
  unfold unpack_lane, wrap_s, wrap_u.
  rewrite Z.shiftr_div_pow2, Z.shiftl_mul_pow2 by
    (destruct (small_cases k Hk) as [->|[->|[->|[->|[->|[->|[->| ->]]]]]]];
     vm_compute; discriminate).
  destruct (small_cases k Hk) as [->|[->|[->|[->|[->|[->|[->| ->]]]]]]];
    eval_pow2; Z.div_mod_to_equations; lia.
Qed.

Lemma unpack_reg_fields (q : list Z) :
  length q = 9%nat -> Forall is_byte q ->
  be_fields 9 (map (fun x => x mod 2 ^ 9) (unpack_reg q)) = be_combine q.
Proof.
  intros Hlen Hq.
  destruct q as [|q0 [|q1 [|q2 [|q3 [|q4 [|q5 [|q6 [|q7 [|q8 [|]]]]]]]]]];
    try discriminate Hlen.
  repeat match goal with H : Forall _ (_ :: _) |- _ => inversion_clear H end.
  cbv [unpack_reg map seq nth Z.of_nat Pos.of_succ_nat Pos.succ].
  rewrite !unpack_lane_field by (first [lia | assumption]).
  cbv [be_combine rev app le_combine be_fields fold_left].
  unfold is_byte in *. eval_pow2. Z.div_mod_to_equations. lia.
Qed.

Lemma be_combine_inj (a b : list Z) :
  length a = length b -> Forall is_byte a -> Forall is_byte b ->
  be_combine a = be_combine b -> a = b.
Proof.
  unfold be_combine. intros Hlen Ha Hb Heq.
  apply (f_equal (le_split (length (rev a)))) in Heq.
  rewrite le_split_combine in Heq by (apply Forall_rev; exact Ha).
  rewrite length_rev, Hlen, <- (length_rev b), le_split_combine in Heq
    by (apply Forall_rev; exact Hb).
  apply (f_equal (@rev Z)) in Heq. rewrite !rev_involutive in Heq. exact Heq.
Qed.

Lemma unpack_reg_length (q : list Z) : length (unpack_reg q) = 8%nat.
Proof. reflexivity. Qed.

Lemma pack_unpack_reg (q : list Z) :
  length q = 9%nat -> Forall is_byte q ->
  take 9 (pack_neon_register_9b_big_endian (unpack_reg q)) = q.
Proof.
  intros Hlen Hq. apply be_combine_inj.
  - rewrite take9_packed_length, Hlen. reflexivity.
  - destruct (pack_neon_register_9b_shape (unpack_reg q)) as (v & -> & _ & Hv).
    apply Forall_take. exact Hv.
  - exact Hq.
  - rewrite packed_register_fields by apply unpack_reg_length.
    apply unpack_reg_fields; assumption.
Qed.

(** Unpacking 27 bytes and packing the samples again gives the same 27
    bytes: every buffer is the packing of its samples. *)
Theorem unpack_pack_prb_9b_roundtrip (packed buf out : list Z) :
  length packed = 27%nat -> Forall is_byte packed ->
  length buf = 27%nat -> length out = 24%nat ->
  pack_prb_9b_big_endian buf (to_regs (unpack_prb_9b_big_endian out packed)) = Ok packed.
Proof.
  intros Hlen Hbytes Hbuf Hout.
  rewrite <- (take_drop 9 packed) at 1 2. rewrite <- (take_drop 9 (drop 9 packed)) at 1 2.
  assert (Hq0 : length (take 9 packed) = 9%nat) by (rewrite length_take; lia).
  assert (Hq1 : length (take 9 (drop 9 packed)) = 9%nat)
    by (rewrite length_take, length_drop; lia).
  assert (Hq2 : length (drop 9 (drop 9 packed)) = 9%nat) by (rewrite !length_drop; lia).
  rewrite unpack_prb_9b_groups by assumption.
  set (s0 := unpack_reg (take 9 packed)).
  set (s1 := unpack_reg (take 9 (drop 9 packed))).
  set (s2 := unpack_reg (drop 9 (drop 9 packed))).
  assert (Hregs : to_regs (s0 ++ s1 ++ s2) = [s0; s1; s2]).
  { unfold to_regs.
    rewrite (take_app_length' s0 (s1 ++ s2) 8) by reflexivity.
    rewrite (drop_app_length' s0 (s1 ++ s2) 8) by reflexivity.
    rewrite (take_app_length' s1 s2 8) by reflexivity.
    rewrite app_assoc, (drop_app_length' (s0 ++ s1) s2 16) by reflexivity.
    reflexivity. }
  rewrite Hregs. subst s0 s1 s2.
  rewrite pack_prb_9b_buffer by exact Hbuf.
  change (val [?a; ?b; ?c] 0) with a. change (val [?a; ?b; ?c] 1) with b.
  change (val [?a; ?b; ?c] 2) with c.
  rewrite !pack_unpack_reg;
    first [assumption | apply Forall_take; try apply Forall_drop; assumption
          | repeat apply Forall_drop; assumption | idtac].
  rewrite !take_drop. reflexivity.
Qed.


(** Twenty-seven bytes, unpacked and packed again. *)
Lemma unpack_pack_prb_9b_roundtrip_witness :
  pack_prb_9b_big_endian (replicate 27 0)
    (to_regs (unpack_prb_9b_big_endian (replicate 24 0)
                [255; 0; 128; 1; 2; 3; 77; 200; 13; 0; 0; 0; 255; 255; 255; 1; 2; 4;
                 8; 16; 32; 64; 128; 170; 85; 240; 15]))
  = Ok [255; 0; 128; 1; 2; 3; 77; 200; 13; 0; 0; 0; 255; 255; 255; 1; 2; 4;
        8; 16; 32; 64; 128; 170; 85; 240; 15].
Proof.
  apply unpack_pack_prb_9b_roundtrip; try reflexivity.
  repeat first [apply List.Forall_nil | apply List.Forall_cons; [unfold is_byte; lia|]].
Defined.

(** *** Sixteen bits *)

Lemma low_byte_stored (x : Z) : wrap_u 8 (wrap_s 8 x) = x mod 256.
Proof. unfold wrap_u, wrap_s. eval_pow2. Z.div_mod_to_equations. lia. Qed.

Lemma high_byte_stored (x : Z) : wrap_u 8 (wrap_s 8 (Z.shiftr x 8)) = (x / 256) mod 256.
Proof.
  rewrite low_byte_stored, Z.shiftr_div_pow2 by lia. reflexivity.
Qed.

(** The buffer after packing sixteen-bit samples. *)
Lemma pack_prb_16b_buffer (r0 r1 r2 buf : list Z) :
  length r0 = 8%nat -> length r1 = 8%nat -> length r2 = 8%nat ->
  length buf = 48%nat ->
  pack_prb_16b_big_endian buf [r0; r1; r2] = Ok (flat_map be_bytes_16 (r0 ++ r1 ++ r2)).
Proof.
  intros H0 H1 H2 Hbuf.
  explicit_list r0 H0. explicit_list r1 H1. explicit_list r2 H2.
  explicit_list buf Hbuf.
  unfold pack_prb_16b_big_endian. rewrite shuffle_mask_16b. unfold_vectors.
  rewrite !high_byte_stored, !low_byte_stored. reflexivity.
Qed.

(** The wire format of [pack_prb_16b_big_endian]: two bytes for each sample,
    the high byte first. *)
Theorem pack_prb_16b_is_big_endian (r0 r1 r2 buf : list Z) :
  length r0 = 8%nat -> length r1 = 8%nat -> length r2 = 8%nat ->
  length buf = 48%nat ->
  pack_prb_16b_big_endian buf [r0; r1; r2] = Ok (flat_map be_bytes_16 (r0 ++ r1 ++ r2)).
Proof.
  intros H0 H1 H2 Hbuf.
  explicit_list r0 H0. explicit_list r1 H1. explicit_list r2 H2.
  explicit_list buf Hbuf.
  unfold pack_prb_16b_big_endian. rewrite shuffle_mask_16b. unfold_vectors.
  rewrite !high_byte_stored, !low_byte_stored.
  cbv [flat_map be_bytes_16 app]. reflexivity.
Qed.

Lemma pack_prb_16b_is_big_endian_witness :
  pack_prb_16b_big_endian (replicate 48 0)
    [[1; -1; 255; -256; 0; 5; -7; 100]; [-32768; 32767; -128; -1; 0; 1; 127; 128];
     [4660; -4660; 3; -3; 17; -200; 200; 42]]
  = Ok (flat_map be_bytes_16
          ([1; -1; 255; -256; 0; 5; -7; 100] ++ [-32768; 32767; -128; -1; 0; 1; 127; 128]
           ++ [4660; -4660; 3; -3; 17; -200; 200; 42])).
Proof.
  exact (pack_prb_16b_is_big_endian
           [1; -1; 255; -256; 0; 5; -7; 100] [-32768; 32767; -128; -1; 0; 1; 127; 128]
           [4660; -4660; 3; -3; 17; -200; 200; 42] (replicate 48 0)
           eq_refl eq_refl eq_refl eq_refl).
Defined.

Lemma lane_16b_bytes (hi lo : Z) :
  is_byte hi -> is_byte lo ->
  wrap_u 8 (wrap_s 8 (Z.shiftr (wrap_s 16 (lo + 256 * hi)) 8)) = hi
  /\ wrap_u 8 (wrap_s 8 (wrap_s 16 (lo + 256 * hi))) = lo.
Proof.
  unfold is_byte. intros Hhi Hlo.
  rewrite high_byte_stored, low_byte_stored. unfold wrap_s.
  eval_pow2. Z.div_mod_to_equations. lia.
Qed.

(** Unpacking 48 bytes of sixteen-bit samples and packing them again gives
    the same 48 bytes. *)
Theorem unpack_pack_prb_16b_roundtrip (packed buf out : list Z) :
  length packed = 48%nat -> Forall is_byte packed ->
  length buf = 48%nat -> length out = 24%nat ->
  pack_prb_16b_big_endian buf (to_regs (unpack_prb_16b_big_endian out packed)) = Ok packed.
Proof.
  intros Hlen Hbytes Hbuf Hout.
  explicit_list packed Hlen. explicit_list buf Hbuf. explicit_list out Hout.
  repeat match goal with H : Forall _ (_ :: _) |- _ => inversion_clear H end.
  unfold unpack_prb_16b_big_endian, pack_prb_16b_big_endian, to_regs.
  rewrite shuffle_mask_16b. unfold_vectors.
  repeat match goal with
         | |- context [wrap_s 16 (?lo + 256 * ?hi)] =>
             let E1 := fresh in let E2 := fresh in
             destruct (lane_16b_bytes hi lo) as [E1 E2]; [assumption | assumption |];
             rewrite E1, E2; clear E1 E2
         end.
  reflexivity.
Qed.

Lemma unpack_pack_prb_16b_roundtrip_witness :
  pack_prb_16b_big_endian (replicate 48 0)
    (to_regs (unpack_prb_16b_big_endian (replicate 24 0)
                [255; 0; 128; 1; 2; 3; 77; 200; 13; 0; 0; 0; 255; 255; 255; 1;
                 2; 4; 8; 16; 32; 64; 128; 170; 85; 240; 15; 9; 8; 7; 6; 5;
                 4; 3; 2; 1; 0; 254; 253; 252; 251; 250; 127; 128; 129; 1; 1; 0]))
  = Ok [255; 0; 128; 1; 2; 3; 77; 200; 13; 0; 0; 0; 255; 255; 255; 1;
        2; 4; 8; 16; 32; 64; 128; 170; 85; 240; 15; 9; 8; 7; 6; 5;
        4; 3; 2; 1; 0; 254; 253; 252; 251; 250; 127; 128; 129; 1; 1; 0].
Proof.
  apply unpack_pack_prb_16b_roundtrip; try reflexivity.
  repeat first [apply List.Forall_nil | apply List.Forall_cons; [unfold is_byte; lia|]].
Defined.


(** *** The output buffer *)

Lemma Ok_inj {A : Type} (a b : A) : Ok a = Ok b -> a = b.
Proof. congruence. Qed.

(** [pack_prb_big_endian] asserts the size of the buffer, 27 bytes for nine
    bits and 48 bytes for sixteen, and nothing else; and it writes every byte
    of the buffer: what the buffer held before does not show in the result. *)
Theorem pack_prb_big_endian_buffer_contract (r0 r1 r2 buf : list Z) (iq_width : Z) :
  length r0 = 8%nat -> length r1 = 8%nat -> length r2 = 8%nat ->
  (pack_prb_big_endian buf [r0; r1; r2] iq_width = AssertionFailure
   <-> (iq_width = 9 /\ length buf <> 27%nat) \/ (iq_width = 16 /\ length buf <> 48%nat))
  /\ (forall buf', length buf' = length buf ->
        pack_prb_big_endian buf' [r0; r1; r2] iq_width
        = pack_prb_big_endian buf [r0; r1; r2] iq_width)
  /\ (forall packed, pack_prb_big_endian buf [r0; r1; r2] iq_width = Ok packed ->
        length packed = length buf).
Proof.
  intros H0 H1 H2. unfold pack_prb_big_endian.
  destruct (Z.eqb_spec iq_width 9) as [-> | H9].
  - destruct (Nat.eq_dec (length buf) 27%nat) as [Hbuf | Hbuf].
    + split; [|split].
      * rewrite pack_prb_9b_buffer by exact Hbuf.
        split; [discriminate | intros [[_ ?] | [? _]]; [contradiction | discriminate]].
      * intros buf' Hlen. rewrite !pack_prb_9b_buffer by congruence. reflexivity.
      * intros packed. rewrite pack_prb_9b_buffer by exact Hbuf.
        intros Heq. apply Ok_inj in Heq. subst packed.
        rewrite !length_app, !take9_packed_length, Hbuf. reflexivity.
    + assert (Hfail : forall b, length b = length buf ->
                pack_prb_9b_big_endian b [r0; r1; r2] = AssertionFailure).
      { intros b Hb. unfold pack_prb_9b_big_endian, BYTES_PER_PRB_9BIT_COMPRESSION.
        rewrite Hb. destruct (Nat.eqb_spec (length buf) 27%nat); [contradiction | reflexivity]. }
      split; [|split].
      * rewrite Hfail by reflexivity. split; [intros _; left; auto | reflexivity].
      * intros buf' Hlen. rewrite !Hfail by congruence. reflexivity.
      * intros packed. rewrite Hfail by reflexivity. discriminate.
  - destruct (Z.eqb_spec iq_width 16) as [-> | H16].
    + destruct (Nat.eq_dec (length buf) 48%nat) as [Hbuf | Hbuf].
      * split; [|split].
        -- rewrite pack_prb_16b_buffer by assumption.
           split; [discriminate | intros [[? _] | [_ ?]]; [discriminate | contradiction]].
        -- intros buf' Hlen. rewrite !pack_prb_16b_buffer by congruence. reflexivity.
        -- intros packed. rewrite pack_prb_16b_buffer by assumption.
           intros Heq. apply Ok_inj in Heq. subst packed.
           explicit_list r0 H0. explicit_list r1 H1. explicit_list r2 H2.
           rewrite Hbuf. reflexivity.
      * assert (Hfail : forall b, length b = length buf ->
                  pack_prb_16b_big_endian b [r0; r1; r2] = AssertionFailure).
        { intros b Hb. unfold pack_prb_16b_big_endian, BYTES_PER_PRB_16BIT_COMPRESSION.
          rewrite Hb. destruct (Nat.eqb_spec (length buf) 48%nat); [contradiction | reflexivity]. }
        split; [|split].
        -- rewrite Hfail by reflexivity. split; [intros _; right; auto | reflexivity].
        -- intros buf' Hlen. rewrite !Hfail by congruence. reflexivity.
        -- intros packed. rewrite Hfail by reflexivity. discriminate.
    + split; [|split].
      * split; [discriminate | intros [[? _] | [? _]]; contradiction].
      * reflexivity.
      * discriminate.
Qed.

Lemma pack_prb_big_endian_buffer_contract_witness :
  (pack_prb_big_endian (replicate 26 7) [replicate 8 1; replicate 8 2; replicate 8 3] 9
   = AssertionFailure
   <-> (9 = 9 /\ length (replicate 26 7) <> 27%nat)
       \/ (9 = 16 /\ length (replicate 26 7) <> 48%nat))
  /\ (forall buf', length buf' = length (replicate 26 7) ->
        pack_prb_big_endian buf' [replicate 8 1; replicate 8 2; replicate 8 3] 9
        = pack_prb_big_endian (replicate 26 7)
            [replicate 8 1; replicate 8 2; replicate 8 3] 9)
  /\ (forall packed,
        pack_prb_big_endian (replicate 26 7)
          [replicate 8 1; replicate 8 2; replicate 8 3] 9 = Ok packed ->
        length packed = length (replicate 26 7)).
Proof.
  exact (pack_prb_big_endian_buffer_contract
           (replicate 8 1) (replicate 8 2) (replicate 8 3) (replicate 26 7) 9
           eq_refl eq_refl eq_refl).
Defined.

End NeonFormatProofs.

(* ===================================================================== *)
(** ** The bounded integer: narrowed arguments and comparisons *)
(* ===================================================================== *)

Module BoundedIntegerCompareProofs.
Import CInt Support BoundedInteger BoundedIntegerProofs BoundedIntegerCompare.
Local Open Scope Z_scope.

(** Conversion to [Integer] does not see multiples of [2 ^ bits]. *)
Lemma convert_add_multiple (T : int_type) (v k : Z) :
  convert T (v + k * 2 ^ bits T) = convert T v.
Proof.
  assert (Hnz : 2 ^ bits T <> 0) by (destruct T; vm_compute; discriminate).
  unfold convert, wrap_s, wrap_u. destruct (is_signed T).
  - replace (v + k * 2 ^ bits T + 2 ^ (bits T - 1))
      with (v + 2 ^ (bits T - 1) + k * 2 ^ bits T) by lia.
    rewrite Z.mod_add by exact Hnz. reflexivity.
  - rewrite Z.mod_add by exact Hnz. reflexivity.
Qed.

(** The assertion of the converting constructor and of the assignment sees
    the argument converted to [Integer]: an argument of a wider type that
    differs from a value within the bounds by a multiple of [2 ^ bits] is
    itself outside the bounds, yet passes, and the object holds the value
    within the bounds. *)
Theorem ctor_accepts_wrapped_argument
    (Integer : int_type) (MIN_VALUE MAX_VALUE v k : Z) :
  representable Integer MIN_VALUE -> representable Integer MAX_VALUE ->
  MIN_VALUE <= v <= MAX_VALUE ->
  ctor Integer MIN_VALUE MAX_VALUE (v + k * 2 ^ bits Integer) = Ok {| value := v |}
  /\ (forall this,
        assign Integer MIN_VALUE MAX_VALUE this (v + k * 2 ^ bits Integer)
        = Ok {| value := v |})
  /\ (k <> 0 -> in_bounds MIN_VALUE MAX_VALUE (v + k * 2 ^ bits Integer) = false).
Proof.
  intros Hmin Hmax Hv.
  assert (Hconv : convert Integer (v + k * 2 ^ bits Integer) = v).
  { rewrite convert_add_multiple. apply convert_representable.
    unfold representable in *. lia. }
  assert (Hin : in_bounds MIN_VALUE MAX_VALUE v = true) by (apply in_bounds_iff; exact Hv).
  unfold ctor, assign, assert_bounds. rewrite Hconv, Hin.
  split; [reflexivity|]. split; [reflexivity|].
  intros Hk.
  destruct (in_bounds MIN_VALUE MAX_VALUE (v + k * 2 ^ bits Integer)) eqn:E; [|reflexivity].
  apply in_bounds_iff in E. exfalso.
  pose proof (type_range Integer) as [Hsize _].
  unfold representable in Hmin, Hmax.
  assert (Hk' : k * 2 ^ bits Integer >= 2 ^ bits Integer
                \/ k * 2 ^ bits Integer <= - 2 ^ bits Integer) by nia.
  lia.
Qed.

(** [sch_mcs_index(28 + 256)] passes and holds 28. *)
Lemma ctor_accepts_wrapped_argument_witness :
  ctor uint8_t 0 31 (28 + 1 * 2 ^ bits uint8_t) = Ok {| value := 28 |}
  /\ (forall this,
        assign uint8_t 0 31 this (28 + 1 * 2 ^ bits uint8_t) = Ok {| value := 28 |})
  /\ (1 <> 0 -> in_bounds 0 31 (28 + 1 * 2 ^ bits uint8_t) = false).
Proof.
  apply (ctor_accepts_wrapped_argument uint8_t 0 31 28 1).
  - unfold representable. cbn. lia.
  - unfold representable. cbn. lia.
  - lia.
Defined.

(** When [MAX_VALUE] is below the largest value of [Integer], the object of
    the default constructor compares greater than every valid object, and
    equal to none. *)
Theorem default_compares_above_valid
    (Integer : int_type) (MIN_VALUE MAX_VALUE : Z) (b : bounded_integer) :
  representable Integer MAX_VALUE -> MAX_VALUE < type_max Integer ->
  is_valid MIN_VALUE MAX_VALUE b = true ->
  let d := default_ctor Integer MAX_VALUE in
  operator_gt d b = true /\ operator_ge d b = true
  /\ operator_lt b d = true /\ operator_le b d = true
  /\ operator_eq d b = false /\ operator_ne d b = true
  /\ operator_lt d b = false /\ operator_le d b = false.
Proof.
  intros Hmax Hlt Hb d.
  assert (Hd : value d = MAX_VALUE + 1).
  { subst d. unfold default_ctor. cbn [value]. apply convert_representable.
    unfold representable in *. lia. }
  unfold is_valid in Hb. apply andb_true_iff in Hb as [_ Hb]. apply Z.leb_le in Hb.
  unfold operator_gt, operator_ge, operator_lt, operator_le, operator_eq, operator_ne.
  rewrite Hd, Z.gtb_ltb, Z.geb_leb.
  repeat split;
    first [apply Z.ltb_lt; lia | apply Z.leb_le; lia | apply Z.eqb_neq; lia
          | apply Z.ltb_ge; lia | apply Z.leb_gt; lia
          | apply negb_true_iff, Z.eqb_neq; lia].
Qed.

(** The default [sch_mcs_index] against index 28. *)
Lemma default_compares_above_valid_witness :
  let d := default_ctor uint8_t 31 in
  let b := {| value := 28 |} in
  operator_gt d b = true /\ operator_ge d b = true
  /\ operator_lt b d = true /\ operator_le b d = true
  /\ operator_eq d b = false /\ operator_ne d b = true
  /\ operator_lt d b = false /\ operator_le d b = false.
Proof.
  apply (default_compares_above_valid uint8_t 0 31 {| value := 28 |}).
  - unfold representable. cbn. lia.
  - cbn. lia.
  - reflexivity.
Defined.

End BoundedIntegerCompareProofs.

(* ===================================================================== *)
(** ** The slice decorators over a sequence of requests *)
(* ===================================================================== *)

Module SliceSequenceProofs.
Import Sched SliceProofs SliceSequence.

Section decorator.
Context {Alloc Candidate : Type}.
Variable wrapped_allocate :
  direction -> ue_grant -> ran_slice_id_t -> Alloc -> alloc_result * Alloc.
Variable id : Candidate -> ran_slice_id_t.
Variable store_grant : nat -> Candidate -> Candidate.

Lemma decorated_all_cons (dir : direction) (grant : ue_grant) (rest : list ue_grant)
    (w : @world Alloc Candidate) :
  decorated_all wrapped_allocate id store_grant dir (grant :: rest) w
  = let (result, w1) := decorated wrapped_allocate id store_grant dir grant w in
    let (results, w2) := decorated_all wrapped_allocate id store_grant dir rest w1 in
    (result :: results, w2).
Proof. reflexivity. Qed.

End decorator.

(** Requests made one after the other through a decorator, when
    [store_grant] leaves the id of the slice candidate alone: the results and
    the allocator are those of the same requests made of the wrapped
    allocator with that id; the slice candidate has received the counts of the
    successful results, in order, and nothing else; and the calls are one
    allocation per request, each success followed by its [store_grant]. *)
Theorem slice_decorator_sequence {Alloc Candidate : Type}
    (wrapped_allocate : direction -> ue_grant -> ran_slice_id_t -> Alloc -> alloc_result * Alloc)
    (id : Candidate -> ran_slice_id_t) (store_grant : nat -> Candidate -> Candidate)
    (dir : direction) (grants : list ue_grant) (w : @world Alloc Candidate) :
  (forall n c, id (store_grant n c) = id c) ->
  let sid := id (w_candidate w) in
  let out := decorated_all wrapped_allocate id store_grant dir grants w in
  let direct := wrapped_all wrapped_allocate dir sid grants (w_alloc w) in
  fst out = fst direct
  /\ w_alloc (snd out) = snd direct
  /\ w_candidate (snd out)
     = fold_left (fun c n => store_grant n c) (granted_rbs (fst direct)) (w_candidate w)
  /\ w_calls (snd out) = w_calls w ++ expected_calls dir sid grants (fst direct).
Proof.
  intros Hid.
  revert w. induction grants as [|grant rest IH]; intros w; cbv zeta.
  - cbn. rewrite app_nil_r. repeat split.
  - rewrite decorated_all_cons, decorated_unfold. cbv zeta.
    cbn [wrapped_all].
    destruct (wrapped_allocate dir grant (id (w_candidate w)) (w_alloc w))
      as [result a'] eqn:Hcall.
    cbn [fst snd].
    destruct (decide (status result = success)) as [Hok|Hko].
    + match goal with
      | |- context [decorated_all _ _ _ dir rest ?w1] =>
          specialize (IH w1); cbv zeta in IH;
          cbn [w_alloc w_candidate w_calls] in IH;
          rewrite Hid in IH;
          destruct (decorated_all wrapped_allocate id store_grant dir rest w1)
            as [results w2]
      end.
      destruct (wrapped_all wrapped_allocate dir (id (w_candidate w)) rest a')
        as [results' a''].
      cbn [fst snd] in *. destruct IH as (-> & -> & -> & ->).
      unfold granted_rbs, expected_calls. cbn [zip_with concat].
      rewrite filter_cons_True by exact Hok. cbn [map fold_left].
      destruct (decide (status result = success)); [|contradiction].
      repeat split. rewrite <- !app_assoc. reflexivity.
    + match goal with
      | |- context [decorated_all _ _ _ dir rest ?w1] =>
          specialize (IH w1); cbv zeta in IH;
          cbn [w_alloc w_candidate w_calls] in IH;
          destruct (decorated_all wrapped_allocate id store_grant dir rest w1)
            as [results w2]
      end.
      destruct (wrapped_all wrapped_allocate dir (id (w_candidate w)) rest a')
        as [results' a''].
      cbn [fst snd] in *. destruct IH as (-> & -> & -> & ->).
      unfold granted_rbs, expected_calls. cbn [zip_with concat].
      rewrite filter_cons_False by exact Hko.
      destruct (decide (status result = success)); [contradiction|].
      repeat split. rewrite <- !app_assoc. reflexivity.
Qed.

(** Three requests over the allocator of the run, the second for a cell that
    was never added. *)
Lemma slice_decorator_sequence_witness :
  let w := {| w_alloc := run_0;
              w_candidate := {| slice_id := 1; rb_count := 0 |};
              w_calls := [] |} in
  let grants := [run_request 7 1; {| user := 8; cell_index := 3; nof_rbs := 1 |};
                 run_request 9 1] in
  let out := decorated_all allocate_grant slice_id ran_slice_candidate_store_grant
               DL grants w in
  let direct := wrapped_all allocate_grant DL 1 grants run_0 in
  fst out = fst direct
  /\ w_alloc (snd out) = snd direct
  /\ w_candidate (snd out)
     = fold_left (fun c n => ran_slice_candidate_store_grant n c)
         (granted_rbs (fst direct)) {| slice_id := 1; rb_count := 0 |}
  /\ w_calls (snd out) = [] ++ expected_calls DL 1 grants (fst direct).
Proof.
  exact (slice_decorator_sequence allocate_grant slice_id ran_slice_candidate_store_grant
           DL [run_request 7 1; {| user := 8; cell_index := 3; nof_rbs := 1 |};
               run_request 9 1]
           {| w_alloc := run_0;
              w_candidate := {| slice_id := 1; rb_count := 0 |};
              w_calls := [] |}
           (fun n c => eq_refl)).
Defined.

End SliceSequenceProofs.

(* ===================================================================== *)
(** ** The AMF connection manager *)
(* ===================================================================== *)

Module AmfConnectionManagerProofs.
Import AmfConnectionManager.

Section amf_connection_manager.
Context {plmn_identity : Type} `{EqDecision plmn_identity}.
Variable invalid : amf_index_t.

Lemma supports_spec (supported_plmns : list plmn_identity) (plmn : plmn_identity) :
  supports supported_plmns plmn = true <-> plmn ∈ supported_plmns.
Proof.
  induction supported_plmns as [|p rest IH]; cbn [supports].
  - split; [discriminate | intros Hin; inversion Hin].
  - destruct (decide (plmn = p)) as [->|Hne].
    + split; [intros _; left | reflexivity].
    + rewrite IH. split; [intros Hin; right; exact Hin|].
      intros Hin. inversion Hin; subst; [contradiction | assumption].
Qed.

Lemma supports_false (supported_plmns : list plmn_identity) (plmn : plmn_identity) :
  supports supported_plmns plmn = false <-> plmn ∉ supported_plmns.
Proof.
  rewrite <- supports_spec. destruct (supports supported_plmns plmn); split;
    first [discriminate | reflexivity | intros Hn; exfalso; apply Hn; reflexivity
          | intros _; discriminate].
Qed.

(** The loop of [plmn_to_amf_index] stops at the first entry that supports
    the PLMN, or runs to the end. *)
Lemma plmn_to_amf_index_from_spec (l : list (amf_index_t * list plmn_identity))
    (plmn : plmn_identity) :
  (exists before idx supported after,
      l = before ++ (idx, supported) :: after
      /\ Forall (fun e => plmn ∉ snd e) before
      /\ plmn ∈ supported
      /\ plmn_to_amf_index_from invalid l plmn = idx)
  \/ (Forall (fun e => plmn ∉ snd e) l
      /\ plmn_to_amf_index_from invalid l plmn = invalid).
Proof.
  induction l as [|[i s] rest IH]; cbn [plmn_to_amf_index_from].
  - right. split; [constructor | reflexivity].
  - destruct (supports s plmn) eqn:Hs.
    + left. exists [], i, s, rest. repeat split; [constructor | apply supports_spec; exact Hs].
    + apply supports_false in Hs.
      destruct IH as [(before & idx & supported & after & -> & Hb & Hin & Hres) | [Hall Hres]].
      * left. exists ((i, s) :: before), idx, supported, after.
        repeat split; [constructor; assumption | assumption | assumption].
      * right. split; [constructor; assumption | assumption].
Qed.

Lemma plmn_to_amf_index_from_first (before after : list (amf_index_t * list plmn_identity))
    (idx : amf_index_t) (supported : list plmn_identity) (plmn : plmn_identity) :
  Forall (fun e => plmn ∉ snd e) before -> plmn ∈ supported ->
  plmn_to_amf_index_from invalid (before ++ (idx, supported) :: after) plmn = idx.
Proof.
  intros Hb Hin. induction Hb as [|[i s] before Hs Hb IH]; cbn [app plmn_to_amf_index_from].
  - apply supports_spec in Hin. rewrite Hin. reflexivity.
  - cbn [snd] in Hs. apply supports_false in Hs. rewrite Hs. exact IH.
Qed.

Lemma handle_connection_setup_result_lookup (this : @amf_connection_manager plmn_identity) (i j : amf_index_t)
    (success : bool) :
  amfs_connected (handle_connection_setup_result this i success) !! j
  = match amfs_connected this !! j with
    | Some b => Some b
    | None => if decide (i = j) then Some success else None
    end.
Proof.
  unfold handle_connection_setup_result. cbn [amfs_connected].
  destruct (amfs_connected this !! i) eqn:Hi.
  - destruct (amfs_connected this !! j) eqn:Hj; [reflexivity|].
    destruct (decide (i = j)) as [->|]; [congruence | reflexivity].
  - destruct (decide (i = j)) as [->|Hne].
    + rewrite lookup_insert_eq, Hi. reflexivity.
    + rewrite lookup_insert_ne by exact Hne.
      destruct (amfs_connected this !! j); reflexivity.
Qed.

End amf_connection_manager.

(** [handle_connection_setup_result] records the first result for an AMF and
    ignores the later ones: after any sequence of results,
    [is_amf_connected(amf_index)] is what the map held for the AMF before, or
    else the first result of the sequence for it, or else false. The NGAP
    interfaces are not touched. *)
Theorem first_setup_result_is_kept {plmn_identity : Type}
    (this : @amf_connection_manager plmn_identity)
    (results : list (amf_index_t * bool)) (amf_index : amf_index_t) :
  is_amf_connected_index (handle_connection_setup_results this results) amf_index
  = match amfs_connected this !! amf_index with
    | Some connected => connected
    | None =>
        match first_result results amf_index with
        | Some success => success
        | None => false
        end
    end
  /\ ngaps (handle_connection_setup_results this results) = ngaps this.
Proof.
  revert this. induction results as [|[i s] rest IH]; intros this.
  - cbn. unfold is_amf_connected_index.
    destruct (amfs_connected this !! amf_index); split; reflexivity.
  - unfold handle_connection_setup_results in *. cbn [fold_left fst snd first_result].
    destruct (IH (handle_connection_setup_result this i s)) as [-> ->].
    split; [|reflexivity].
    rewrite handle_connection_setup_result_lookup.
    destruct (amfs_connected this !! amf_index); [reflexivity|].
    destruct (decide (i = amf_index)); reflexivity.
Qed.

(** [is_amf_connected(plmn)] is true exactly when the first NGAP interface
    that supports the PLMN has an index other than [invalid] for which
    [amfs_connected] holds true. Interfaces that come later are not looked
    at. *)
Theorem is_amf_connected_plmn_first_match {plmn_identity : Type}
    `{EqDecision plmn_identity} (invalid : amf_index_t)
    (this : @amf_connection_manager plmn_identity) (plmn : plmn_identity) :
  is_amf_connected_plmn invalid this plmn = true
  <-> exists before idx supported after,
        ngaps this = before ++ (idx, supported) :: after
        /\ Forall (fun e => plmn ∉ snd e) before
        /\ plmn ∈ supported
        /\ idx <> invalid
        /\ amfs_connected this !! idx = Some true.
Proof.
  unfold is_amf_connected_plmn, plmn_to_amf_index, is_amf_connected_index. cbv zeta.
  split.
  - destruct (plmn_to_amf_index_from_spec invalid (ngaps this) plmn)
      as [(before & idx & supported & after & Hl & Hb & Hin & ->) | [_ ->]].
    + destruct (decide (idx = invalid)) as [|Hne]; [discriminate|].
      destruct (amfs_connected this !! idx) as [[|]|] eqn:Hc; try discriminate.
      intros _. exists before, idx, supported, after. repeat split; assumption.
    + destruct (decide (invalid = invalid)); [discriminate | contradiction].
  - intros (before & idx & supported & after & -> & Hb & Hin & Hne & Hc).
    rewrite plmn_to_amf_index_from_first by assumption.
    destruct (decide (idx = invalid)); [contradiction|].
    rewrite Hc. reflexivity.
Qed.

End AmfConnectionManagerProofs.

(* ===================================================================== *)
(** ** The PDCP sequence number of a PDU *)
(* ===================================================================== *)

Module PdcpSnUtilProofs.
Import Support PdcpSnUtil.
Local Open Scope Z_scope.

Section get_pdcp_sn.
Context {bit_decoder : Type}.
Variable make_decoder : list Z -> bit_decoder.
Variable unpack : bit_decoder -> Z -> option Z * bit_decoder.

Lemma check_header_value (asserts asserts' : bool) (reserved pdcp_sn : option Z) (sn : Z) :
  check_header asserts reserved pdcp_sn = Ok (Some sn) ->
  check_header asserts' reserved pdcp_sn = Ok (Some sn).
Proof.
  unfold check_header, assertion_failure.
  destruct reserved as [r|], pdcp_sn as [s|]; try (destruct asserts; discriminate).
  destruct (negb (r =? 0)); [destruct asserts; discriminate | exact (fun H => H)].
Qed.

Lemma check_header_enabled (reserved pdcp_sn : option Z) :
  check_header true reserved pdcp_sn <> Ok None.
Proof.
  unfold check_header, assertion_failure.
  destruct reserved as [r|], pdcp_sn as [s|]; try discriminate.
  destruct (negb (r =? 0)); discriminate.
Qed.

Lemma check_header_disabled (reserved pdcp_sn : option Z) :
  exists r, check_header false reserved pdcp_sn = Ok r.
Proof.
  unfold check_header, assertion_failure.
  destruct reserved as [r|], pdcp_sn as [s|]; try (eexists; reflexivity).
  destruct (negb (r =? 0)); eexists; reflexivity.
Qed.

End get_pdcp_sn.

(** In a build with assertions, [get_pdcp_sn] returns without a value for one
    kind of PDU only, the control PDU of a DRB (a PDU that is not empty and
    whose first bit reads 0); every other PDU it cannot take a number from
    fails an assertion. In a build without assertions no call fails. *)
Theorem get_pdcp_sn_without_value {bit_decoder : Type}
    (make_decoder : list Z -> bit_decoder)
    (unpack : bit_decoder -> Z -> option Z * bit_decoder)
    (pdcp_pdu : list Z) (pdcp_sn_len : pdcp_sn_size) (is_srb : bool) :
  (get_pdcp_sn true make_decoder unpack pdcp_pdu pdcp_sn_len is_srb = Ok None
   <-> pdcp_pdu <> [] /\ is_srb = false
       /\ fst (unpack (make_decoder pdcp_pdu) 1) = Some 0)
  /\ (exists r, get_pdcp_sn false make_decoder unpack pdcp_pdu pdcp_sn_len is_srb = Ok r).
Proof.
  unfold get_pdcp_sn. destruct pdcp_pdu as [|b rest].
  { split; [|eexists; reflexivity].
    split; [discriminate | intros [Hne _]; contradiction]. }
  set (pdu := b :: rest).
  destruct (unpack (make_decoder pdu) 1) as [[dc|] d1] eqn:Hdc; cbn [fst].
  - destruct is_srb; cbn [andb negb].
    + destruct (bool_decide (pdcp_sn_len = size12bits)) eqn:Hlen; cbn [negb].
      * apply bool_decide_eq_true in Hlen. subst pdcp_sn_len.
        destruct (dc =? 1).
        -- split; [|eexists; reflexivity].
           split; [discriminate | intros (_ & Hs & _); discriminate].
        -- destruct (unpack d1 3) as [reserved d2], (unpack d2 12) as [pdcp_sn d3].
           split; [|apply check_header_disabled].
           split; [intros Hn; exfalso; exact (check_header_enabled _ _ Hn)
                  | intros (_ & Hs & _); discriminate].
      * split; [|eexists; reflexivity].
        split; [discriminate | intros (_ & Hs & _); discriminate].
    + destruct (Z.eqb_spec dc 0) as [->|Hne].
      * split; [|eexists; reflexivity].
        split; [intros _; repeat split; discriminate | reflexivity].
      * assert (Hno : Some dc <> Some 0) by congruence.
        destruct pdcp_sn_len.
        -- destruct (unpack d1 3) as [reserved d2], (unpack d2 12) as [pdcp_sn d3].
           split; [|apply check_header_disabled].
           split; [intros Hn; exfalso; exact (check_header_enabled _ _ Hn)
                  | intros (_ & _ & Hs); contradiction].
        -- destruct (unpack d1 5) as [reserved d2], (unpack d2 18) as [pdcp_sn d3].
           split; [|apply check_header_disabled].
           split; [intros Hn; exfalso; exact (check_header_enabled _ _ Hn)
                  | intros (_ & _ & Hs); contradiction].
        -- split; [|eexists; reflexivity].
           split; [discriminate | intros (_ & _ & Hs); contradiction].
  - split.
    + destruct (is_srb && negb (bool_decide (pdcp_sn_len = size12bits)));
        (split; [discriminate | intros (_ & _ & Hs); discriminate]).
    + destruct (is_srb && negb (bool_decide (pdcp_sn_len = size12bits)));
        eexists; reflexivity.
Qed.

(** A sequence number comes only out of a PDU that is not empty, with a size
    of 12 or 18 bits, and 12 bits on an SRB; and the same number comes out
    whether the build has assertions or not. *)
Theorem get_pdcp_sn_value {bit_decoder : Type}
    (asserts_enabled : bool) (make_decoder : list Z -> bit_decoder)
    (unpack : bit_decoder -> Z -> option Z * bit_decoder)
    (pdcp_pdu : list Z) (pdcp_sn_len : pdcp_sn_size) (is_srb : bool) (sn : Z) :
  get_pdcp_sn asserts_enabled make_decoder unpack pdcp_pdu pdcp_sn_len is_srb = Ok (Some sn) ->
  pdcp_pdu <> []
  /\ pdcp_sn_len <> size_other
  /\ (is_srb = true -> pdcp_sn_len = size12bits)
  /\ (exists dc, fst (unpack (make_decoder pdcp_pdu) 1) = Some dc
                 /\ dc <> (if is_srb then 1 else 0))
  /\ (forall asserts,
        get_pdcp_sn asserts make_decoder unpack pdcp_pdu pdcp_sn_len is_srb = Ok (Some sn)).
Proof.
  unfold get_pdcp_sn, assertion_failure. destruct pdcp_pdu as [|b rest].
  { destruct asserts_enabled; discriminate. }
  set (pdu := b :: rest).
  destruct (is_srb && negb (bool_decide (pdcp_sn_len = size12bits))) eqn:Hsrb.
  { destruct asserts_enabled; discriminate. }
  destruct (unpack (make_decoder pdu) 1) as [[dc|] d1] eqn:Hdc; cbn [fst];
    [|destruct asserts_enabled; discriminate].
  destruct (negb is_srb && (dc =? 0)) eqn:Hctl; [discriminate|].
  destruct (is_srb && (dc =? 1)) eqn:Hres; [destruct asserts_enabled; discriminate|].
  assert (Hdcne : dc <> (if is_srb then 1 else 0)).
  { destruct is_srb; cbn [andb negb] in Hctl, Hres.
    - apply Z.eqb_neq. exact Hres.
    - apply Z.eqb_neq. exact Hctl. }
  assert (Hlen : is_srb = true -> pdcp_sn_len = size12bits).
  { intros ->. cbn [andb] in Hsrb. apply negb_false_iff, bool_decide_eq_true in Hsrb.
    exact Hsrb. }
  destruct pdcp_sn_len.
  - destruct (unpack d1 3) as [reserved d2], (unpack d2 12) as [pdcp_sn d3].
    intros Hv. repeat split; try discriminate; try assumption.
    + exists dc. split; [reflexivity | exact Hdcne].
    + intros asserts. eapply check_header_value. exact Hv.
  - destruct (unpack d1 5) as [reserved d2], (unpack d2 18) as [pdcp_sn d3].
    intros Hv. repeat split; try discriminate; try assumption.
    + exists dc. split; [reflexivity | exact Hdcne].
    + intros asserts. eapply check_header_value. exact Hv.
  - destruct asserts_enabled; discriminate.
Qed.

(** A decoder that reads a 1 for one bit, 0 for the reserved bits and 291 for
    the number: a data PDU of a DRB with 12-bit numbers. *)
Lemma get_pdcp_sn_value_witness :
  let unpack := fun (d : unit) (n_bits : Z) =>
                  (Some (if n_bits =? 1 then 1 else if n_bits <? 6 then 0 else 291), d) in
  [129; 35] <> []
  /\ size12bits <> size_other
  /\ (false = true -> size12bits = size12bits)
  /\ (exists dc, fst (unpack tt 1) = Some dc /\ dc <> (if false then 1 else 0))
  /\ (forall asserts,
        get_pdcp_sn asserts (fun _ => tt) unpack [129; 35] size12bits false = Ok (Some 291)).
Proof.
  exact (get_pdcp_sn_value true (fun _ => tt)
           (fun (d : unit) (n_bits : Z) =>
              (Some (if n_bits =? 1 then 1 else if n_bits <? 6 then 0 else 291), d))
           [129; 35] size12bits false 291 eq_refl).
Defined.

End PdcpSnUtilProofs.
